(** * drone-ssh: a shallow embedding of [plugin.go]

    The plugin runs a script on a list of hosts over SSH.  This file
    embeds [escapeArg], [Plugin.log], [retryStream], [Plugin.exec] and
    [Plugin.Exec] and proves properties of them.

    Conventions.
    - Go strings are byte strings: [string].
    - [time.Duration] is a signed 64-bit count of nanoseconds: a [Z]
      with the wrap-around of [*=] written out ([wrap64]).
    - The SSH session ([easyssh.MakeConfig.Stream]), the process
      environment ([os.LookupEnv]) and the case mapping of the Go
      library ([strings.ToUpper], which follows the Unicode tables) are
      outside the repository; they are the fields of a [world] that
      every function receives.
    - Goroutines, the buffered channel [errChannel], the channel
      [finished] and the [sync.WaitGroup] are state of a small
      interleaving interpreter ([step], [run]); a schedule says which
      goroutine moves next and how a [select] with two ready cases
      resolves. *)

From Stdlib Require Import ZArith Lia Ascii String List Bool Sorted.
From Stdlib Require Import Numbers.DecimalString.
From stdpp Require Import base list.
Import ListNotations.

Local Open Scope string_scope.
Local Open Scope Z_scope.

(** ** Errors *)

(** A Go [error] value that is not nil.  The only distinction the
    program makes is whether its dynamic type is [net.OpError]. *)
Inductive error : Type :=
| NetOpError (msg : string)
| PlainError (msg : string).

Definition isOpError (e : error) : bool :=
  match e with NetOpError _ => true | PlainError _ => false end.

(** [fmt.Errorf] on a format string without verbs. *)
Definition Errorf (msg : string) : error := PlainError msg.

Definition missingHostOrUser : string := "Error: missing server host or user".
Definition missingPasswordOrKey : string :=
  "Error: can't connect without a private SSH key or password".
Definition commandTimeOut : string := "Error: command timeout".
Definition setPasswordandKey : string := "can't set password and key at the same time".

(** ** Configuration *)

Record DefaultConfig : Type := {
  pxServer : string;
  pxUser : string;
  pxPassword : string;
  pxPort : string;
  pxKey : string;
  pxKeyPath : string;
  pxTimeout : Z
}.

Record Config : Type := {
  Key : string;
  KeyPath : string;
  UserName : string;
  Password : string;
  Host : list string;
  Port : Z;
  Timeout : Z;
  RetryTimeout : Z;
  CommandTimeout : Z;
  Script : list string;
  Secrets : list string;
  Envs : list string;
  Proxy : DefaultConfig;
  Debug : bool;
  Sync : bool
}.

(** An [io.Writer]: the process's standard output or some other sink. *)
Inductive writer : Type :=
| Stdout
| Sink (id : nat).

Record Plugin : Type := {
  Cfg : Config;
  Writer : option writer
}.

(** The [easyssh.MakeConfig] built at the top of [Plugin.exec]. *)
Record MakeConfig : Type := {
  mcServer : string;
  mcUser : string;
  mcPassword : string;
  mcPort : string;
  mcKey : string;
  mcKeyPath : string;
  mcTimeout : Z;
  mcProxy : DefaultConfig
}.

(** ** String helpers of the Go library *)

Definition len (s : string) : nat := String.length s.

(** [strings.Join]. *)
Fixpoint Join (elems : list string) (sep : string) : string :=
  match elems with
  | [] => ""
  | [e] => e
  | e :: rest => e ++ sep ++ Join rest sep
  end.

(** [strings.Replace s old new (-1)] for a non-empty [old]: every
    non-overlapping occurrence, left to right.  [skip] counts the bytes
    of an occurrence that was just replaced and are still to be dropped. *)
Fixpoint replace_from (skip : nat) (old new s : string) : string :=
  match s with
  | EmptyString => EmptyString
  | String c rest =>
      match skip with
      | S k => replace_from k old new rest
      | O =>
          if String.prefix old s
          then new ++ replace_from (len old - 1) old new rest
          else String c (replace_from O old new rest)
      end
  end.

Definition ReplaceAll (s old new : string) : string := replace_from O old new s.

Definition upper_byte (c : ascii) : ascii :=
  let n := nat_of_ascii c in
  if (97 <=? n)%nat && (n <=? 122)%nat then ascii_of_nat (n - 32) else c.

(** What [strings.ToUpper] returns for a string of ASCII bytes: the
    letters a to z in upper case.  The sample worlds below, whose
    variable names are ASCII, use it for their case mapping. *)
Fixpoint upper_ascii (s : string) : string :=
  match s with
  | EmptyString => EmptyString
  | String c rest => String (upper_byte c) (upper_ascii rest)
  end.

(** [strconv.Itoa]. *)
Definition Itoa (n : Z) : string := NilZero.string_of_int (Z.to_int n).

(** [fmt.Sprintln] on string operands: a space between operands and a
    newline at the end. *)
Definition newline : string := String "010"%char EmptyString.

Definition Sprintln (message : list string) : string := Join message " " ++ newline.

(** ** [escapeArg] *)

Definition quote : string := "'".
Definition escaped_quote : string := "'\''".

Definition escapeArg (arg : string) : string :=
  quote ++ ReplaceAll arg quote escaped_quote ++ quote.

(** ** [Plugin.log] *)

(** What one call of [p.log(host, message...)] writes, and where. *)
Definition log (p : Plugin) (host : string) (message : list string) : writer * string :=
  let w := match Writer p with None => Stdout | Some w => w end in
  if (List.length (Host (Cfg p)) =? 1)%nat
  then (w, Sprintln message)
  else (w, host ++ ": " ++ Sprintln message).

(** ** The outside world *)

(** One receive of the [select] in [Plugin.exec]: a line of standard
    output, a line of standard error, a value of the error channel
    (possibly nil) or the completion flag. *)
Inductive event : Type :=
| EvOut (line : string)
| EvErr (line : string)
| EvError (e : option error)
| EvDone (completed : bool).

(** What [ssh.Stream] returns: the channels (here the receives they
    will deliver, in the order the [select] takes them) or an error. *)
Inductive stream_result : Type :=
| StreamOk (evs : list event)
| StreamErr (e : error).

(** One call of [ssh.Stream]: how long it takes (nanoseconds), what it
    returns, and how the [select] of [retryStream] resolves when both
    timers are ready at the same instant. *)
Record conn_attempt : Type := {
  elapsed : N;
  answer : stream_result;
  deadline_first : bool
}.

(** [ToUpper] is [strings.ToUpper], [LookupEnv] is [os.LookupEnv] and
    [Stream] answers call number [k] of [ssh.Stream] for a
    configuration, a command and a command timeout. *)
Record world : Type := {
  ToUpper : string -> string;
  LookupEnv : string -> option string;
  Stream : MakeConfig -> string -> Z -> nat -> conn_attempt
}.

(** ** [retryStream] *)

Definition wrap64 (x : Z) : Z := (x + 2 ^ 63) mod 2 ^ 64 - 2 ^ 63.

Definition int64 (x : Z) : Prop := - 2 ^ 63 <= x < 2 ^ 63.

(** [time.Second]. *)
Definition second : Z := 1000000000.

(** One turn of the [for] loop: the value of [wait] during the turn,
    the instant [ssh.Stream] returned and what it returned. *)
Record iteration : Type := {
  it_wait : Z;
  it_done : Z;
  it_answer : stream_result
}.

Record retry_result : Type := {
  rr_answer : stream_result;
  rr_iters : list iteration;
  rr_slept : Z
}.

Definition one_turn (it : iteration) (slept : Z) : retry_result :=
  {| rr_answer := it_answer it; rr_iters := [it]; rr_slept := slept |}.

Definition and_then (it : iteration) (slept : Z) (r : retry_result) : retry_result :=
  {| rr_answer := rr_answer r; rr_iters := it :: rr_iters r; rr_slept := slept + rr_slept r |}.

(** The loop of [retryStream].  Time is counted from the call of
    [time.After(p.Config.RetryTimeout)], whose channel is ready from
    [deadline] on.  [k] counts the calls of [ssh.Stream] made so far,
    [now] is the clock at the top of the loop. *)
Fixpoint retry_loop (fuel : nat) (deadline : Z) (stream : nat -> conn_attempt)
    (k : nat) (now wait : Z) : option retry_result :=
  match fuel with
  | O => None
  | S fuel' =>
      let a := stream k in
      let t := now + Z.of_N (elapsed a) in
      let it := {| it_wait := wait; it_done := t; it_answer := answer a |} in
      match answer a with
      | StreamOk _ => Some (one_turn it 0)
      | StreamErr err =>
          if negb (isOpError err) then Some (one_turn it 0)
          else
            (* select: the instants at which the two cases become ready *)
            let t_timeout := Z.max t deadline in
            let t_wait := Z.max t (t + wait) in
            if (t_timeout <? t_wait) || ((t_timeout =? t_wait) && deadline_first a)
            then Some (one_turn it (t_timeout - t))
            else
              match retry_loop fuel' deadline stream (S k) t_wait (wrap64 (wait * 2)) with
              | Some r => Some (and_then it (t_wait - t) r)
              | None => None
              end
      end
  end.

Definition retry_fuel : nat := 64.

Definition retryStream (w : world) (ssh : MakeConfig) (p : Plugin) : option retry_result :=
  retry_loop retry_fuel (RetryTimeout (Cfg p))
    (Stream w ssh (Join (Script (Cfg p)) newline) (CommandTimeout (Cfg p)))
    0%nat 0 second.

(** ** Goroutines *)

(** The operations of [Plugin.exec] and [Plugin.Exec] that touch shared
    state or the outside world. *)
#[warnings="-register-all"]
Inductive instr : Type :=
| IWrite (out : writer * string)
| IStream (server : string)
| ISend (e : error)
| IWgAdd (n : Z)
| IWgDone
| IWgWait
| IClose
| IGo (body : list instr)
| ISelect
| IReturn (r : option error)
| IBlock.

(** ** [Plugin.exec] *)

Definition with_script (p : Plugin) (script : list string) : Plugin :=
  let c := Cfg p in
  {| Cfg := {| Key := Key c; KeyPath := KeyPath c; UserName := UserName c;
               Password := Password c; Host := Host c; Port := Port c;
               Timeout := Timeout c; RetryTimeout := RetryTimeout c;
               CommandTimeout := CommandTimeout c; Script := script;
               Secrets := Secrets c; Envs := Envs c; Proxy := Proxy c;
               Debug := Debug c; Sync := Sync c |};
     Writer := Writer p |}.

(** The loop over [p.Config.Envs]. *)
Fixpoint forward_env (w : world) (envs : list string) : list string :=
  match envs with
  | [] => []
  | key :: rest =>
      let key := ToUpper w key in
      match LookupEnv w key with
      | Some val => (key ++ "=" ++ escapeArg val) :: forward_env w rest
      | None => forward_env w rest
      end
  end.

Record mux_result : Type := {
  mx_writes : list (writer * string);
  mx_exit : option (option error * bool)
}.

(** The labelled loop: [err] is the variable the error channel is
    received into; the loop is left with the pair [(err, isTimeout)]. *)
Fixpoint multiplex (p : Plugin) (host : string) (evs : list event) (err : option error)
    : mux_result :=
  match evs with
  | [] => {| mx_writes := []; mx_exit := None |}
  | EvDone isTimeout :: _ => {| mx_writes := []; mx_exit := Some (err, isTimeout) |}
  | EvOut outline :: rest =>
      let m := multiplex p host rest err in
      {| mx_writes := log p host ["out:"; outline] :: mx_writes m; mx_exit := mx_exit m |}
  | EvErr errline :: rest =>
      let m := multiplex p host rest err in
      {| mx_writes := log p host ["err:"; errline] :: mx_writes m; mx_exit := mx_exit m |}
  | EvError e :: rest => multiplex p host rest e
  end.

(** The two sends that follow the loop. *)
Definition reports (err : option error) (isTimeout : bool) : list error :=
  (match err with Some e => [e] | None => [] end)
  ++ (if negb isTimeout then [Errorf commandTimeOut] else []).

Definition ssh_config (p : Plugin) (host : string) : MakeConfig :=
  let c := Cfg p in
  {| mcServer := host; mcUser := UserName c; mcPassword := Password c;
     mcPort := Itoa (Port c); mcKey := Key c; mcKeyPath := KeyPath c;
     mcTimeout := Timeout c;
     mcProxy := {| pxServer := pxServer (Proxy c); pxUser := pxUser (Proxy c);
                   pxPassword := pxPassword (Proxy c); pxPort := pxPort (Proxy c);
                   pxKey := pxKey (Proxy c); pxKeyPath := pxKeyPath (Proxy c);
                   pxTimeout := pxTimeout (Proxy c) |} |}.

Definition exec (w : world) (p : Plugin) (host : string) : list instr :=
  let ssh := ssh_config p host in
  let env := forward_env w (Envs (Cfg p)) in
  let p' := with_script p (env ++ Script (Cfg p)) in
  [IWrite (log p host ["======CMD======"]);
   IWrite (log p host [Join (Script (Cfg p)) newline]);
   IWrite (log p host ["======END======"])]
  ++ (if Debug (Cfg p)
      then [IWrite (log p' host ["======ENV======"]);
            IWrite (log p' host [Join env newline]);
            IWrite (log p' host ["======END======"])]
      else [])
  ++ match retryStream w ssh p' with
     | None => [IBlock]
     | Some r =>
         repeat (IStream host) (List.length (rr_iters r))
         ++ match rr_answer r with
            | StreamErr err => [ISend err]
            | StreamOk evs =>
                let m := multiplex p' host evs None in
                map IWrite (mx_writes m)
                ++ match mx_exit m with
                   | None => [IBlock]
                   | Some (err, isTimeout) => map ISend (reports err isTimeout)
                   end
            end
     end
  ++ [IWgDone].

(** ** The interleaving interpreter *)

(** The shared state of one run of [Plugin.Exec]:
    - [threads]: what each goroutine has left to do; index 0 is the
      goroutine that called [Exec];
    - [errChannel]: the buffer (capacity 1) of [errChannel];
    - [finished]: whether [finished] has been closed;
    - [wg]: the counter of the [sync.WaitGroup];
    - [output]: everything written, in order;
    - [streams]: the servers [ssh.Stream] was called for, in order;
    - [returned]: the value [Exec] returned, once it has. *)
Record state : Type := {
  threads : list (list instr);
  errChannel : option error;
  finished : bool;
  wg : Z;
  output : list (writer * string);
  streams : list string;
  returned : option (option error)
}.

Definition set_threads (ts : list (list instr)) (st : state) : state :=
  {| threads := ts; errChannel := errChannel st; finished := finished st;
     wg := wg st; output := output st; streams := streams st;
     returned := returned st |}.

Definition set_errChannel (c : option error) (st : state) : state :=
  {| threads := threads st; errChannel := c; finished := finished st;
     wg := wg st; output := output st; streams := streams st;
     returned := returned st |}.

Definition set_finished (b : bool) (st : state) : state :=
  {| threads := threads st; errChannel := errChannel st; finished := b;
     wg := wg st; output := output st; streams := streams st;
     returned := returned st |}.

Definition set_wg (n : Z) (st : state) : state :=
  {| threads := threads st; errChannel := errChannel st; finished := finished st;
     wg := n; output := output st; streams := streams st;
     returned := returned st |}.

Definition set_output (o : list (writer * string)) (st : state) : state :=
  {| threads := threads st; errChannel := errChannel st; finished := finished st;
     wg := wg st; output := o; streams := streams st;
     returned := returned st |}.

Definition set_streams (s : list string) (st : state) : state :=
  {| threads := threads st; errChannel := errChannel st; finished := finished st;
     wg := wg st; output := output st; streams := s;
     returned := returned st |}.

Definition set_returned (r : option (option error)) (st : state) : state :=
  {| threads := threads st; errChannel := errChannel st; finished := finished st;
     wg := wg st; output := output st; streams := streams st;
     returned := r |}.

(** One move of goroutine [tid]; [None] when it cannot move (it is
    blocked, has ended, or [Exec] has returned).  [pick_finished] is the
    choice of the [select] of [Exec] when both of its cases are ready. *)
Definition step (tid : nat) (pick_finished : bool) (st : state) : option state :=
  match returned st with
  | Some _ => None
  | None =>
      match threads st !! tid with
      | Some (i :: rest) =>
          let st' := set_threads (<[tid := rest]> (threads st)) st in
          match i with
          | IWrite out => Some (set_output (output st ++ [out]) st')
          | IStream server => Some (set_streams (streams st ++ [server]) st')
          | ISend e =>
              match errChannel st with
              | None => Some (set_errChannel (Some e) st')
              | Some _ => None
              end
          | IWgAdd n => Some (set_wg (wg st + n) st')
          | IWgDone => Some (set_wg (wg st - 1) st')
          | IWgWait => if wg st =? 0 then Some st' else None
          | IClose => Some (set_finished true st')
          | IGo body => Some (set_threads (<[tid := rest]> (threads st) ++ [body]) st)
          | ISelect =>
              match errChannel st, finished st with
              | None, false => None
              | None, true => Some st'
              | Some err, false =>
                  Some (set_returned (Some (Some err)) (set_errChannel None st'))
              | Some err, true =>
                  if pick_finished then Some st'
                  else Some (set_returned (Some (Some err)) (set_errChannel None st'))
              end
          | IReturn r => Some (set_returned (Some r) st')
          | IBlock => None
          end
      | _ => None
      end
  end.

Definition schedule : Type := list (nat * bool).

Definition move (st : state) (c : nat * bool) : state :=
  match step (fst c) (snd c) st with
  | Some st' => st'
  | None => st
  end.

Definition run (sched : schedule) (st : state) : state := fold_left move sched st.

(** No goroutine can move and [Exec] has not returned. *)
Definition deadlocked (st : state) : Prop :=
  returned st = None /\ forall tid pick, step tid pick st = None.

(** ** [Plugin.Exec] *)

Definition banner : list string :=
  ["==========================================";
   "Successfully executed commands to all host.";
   "=========================================="].

Definition Println (s : string) : instr := IWrite (Stdout, Sprintln [s]).

Definition closer : list instr := [IWgWait; IClose].

(** The conditions of the three checks at the top of [Exec]. *)
Definition noHostAndUser (c : Config) : bool :=
  (List.length (Host c) =? 0)%nat && (len (UserName c) =? 0)%nat.

Definition noPasswordOrKey (c : Config) : bool :=
  (len (Key c) =? 0)%nat && (len (Password c) =? 0)%nat && (len (KeyPath c) =? 0)%nat.

Definition passwordAndKey (c : Config) : bool :=
  negb (len (Key c) =? 0)%nat && negb (len (Password c) =? 0)%nat.

Definition validate (p : Plugin) : option error :=
  if noHostAndUser (Cfg p) then Some (Errorf missingHostOrUser)
  else if noPasswordOrKey (Cfg p) then Some (Errorf missingPasswordOrKey)
  else if passwordAndKey (Cfg p) then Some (Errorf setPasswordandKey)
  else None.

(** The body of [Exec] after the checks. *)
Definition fanout (w : world) (p : Plugin) : list instr :=
  let c := Cfg p in
  [IWgAdd (Z.of_nat (List.length (Host c)))]
  ++ flat_map (fun host => if Sync c then exec w p host else [IGo (exec w p host)]) (Host c)
  ++ [IGo closer; ISelect]
  ++ map Println banner
  ++ [IReturn None].

Definition start (main : list instr) : state :=
  {| threads := [main]; errChannel := None; finished := false; wg := 0;
     output := []; streams := []; returned := None |}.

(** [Exec] returned [err] before doing anything else. *)
Definition refused (err : error) : state := set_returned (Some (Some err)) (start []).

Definition Exec (w : world) (p : Plugin) (sched : schedule) : state :=
  match validate p with
  | Some err => refused err
  | None => run sched (start (fanout w p))
  end.

(** ** How a POSIX shell reads a word

    The remote shell is not part of the repository.  To state what
    [escapeArg] is for, this is the part of the shell's token
    recognition that quoting with single quotes relies on (POSIX XCU
    2.2.1 and 2.2.2 and the splitting of words at blanks): inside
    single quotes every byte is literal up to the next single quote; a
    backslash outside quotes makes the next byte literal, and removes a
    following newline; blanks outside quotes end a word.  Input that
    uses anything else of the shell language is refused. *)

Inductive sh_mode : Type :=
| Unquoted
| InSingleQuotes
| AfterBackslash.

Definition is_quote (c : ascii) : bool := Ascii.eqb c "'"%char.
Definition is_backslash (c : ascii) : bool := Ascii.eqb c "\"%char.
Definition is_newline (c : ascii) : bool := Ascii.eqb c "010"%char.
Definition is_blank (c : ascii) : bool :=
  Ascii.eqb c " "%char || Ascii.eqb c "009"%char || is_newline c.

(** Bytes with a meaning of their own outside quotes. *)
Definition sh_unsupported (c : ascii) : bool :=
  existsb (Ascii.eqb c)
    (list_ascii_of_string ("|&;<>()$`*?[#~" ++ String "034"%char "")).

Definition push (c : ascii) (word : option string) : option string :=
  match word with
  | Some w => Some (w ++ String c "")
  | None => Some (String c "")
  end.

Definition open_word (word : option string) : option string :=
  match word with
  | Some w => Some w
  | None => Some ""
  end.

Definition emit (word : option string) (rest : option (list string)) : option (list string) :=
  match word with
  | Some w => option_map (cons w) rest
  | None => rest
  end.

(** The words of [s]; [word] is the word being read, if any. *)
Fixpoint sh_words (mode : sh_mode) (word : option string) (s : string)
    : option (list string) :=
  match s with
  | EmptyString =>
      match mode with
      | Unquoted => emit word (Some [])
      | InSingleQuotes | AfterBackslash => None
      end
  | String c rest =>
      match mode with
      | InSingleQuotes =>
          if is_quote c then sh_words Unquoted word rest
          else sh_words InSingleQuotes (push c word) rest
      | AfterBackslash =>
          if is_newline c then sh_words Unquoted word rest
          else sh_words Unquoted (push c word) rest
      | Unquoted =>
          if is_quote c then sh_words InSingleQuotes (open_word word) rest
          else if is_backslash c then sh_words AfterBackslash word rest
          else if is_blank c then emit word (sh_words Unquoted None rest)
          else if sh_unsupported c then None
          else sh_words Unquoted (push c word) rest
      end
  end.

Definition sh_parse (s : string) : option (list string) := sh_words Unquoted None s.

(** The escaping in the words of the description: every single quote
    becomes the four bytes that close the quotes, add an escaped quote
    and open the quotes again; every other byte is kept. *)
Fixpoint escape_quotes (arg : string) : string :=
  match arg with
  | EmptyString => EmptyString
  | String c rest =>
      if is_quote c then escaped_quote ++ escape_quotes rest
      else String c (escape_quotes rest)
  end.

(** ** Sample configurations, worlds and schedules *)

Definition no_proxy : DefaultConfig :=
  {| pxServer := ""; pxUser := ""; pxPassword := ""; pxPort := "";
     pxKey := ""; pxKeyPath := ""; pxTimeout := 0 |}.

(** A plugin that runs [whoami] with a retry deadline of five seconds. *)
Definition sample (hosts : list string) (user key password : string) (sync : bool) : Plugin :=
  {| Cfg := {| Key := key; KeyPath := ""; UserName := user; Password := password;
               Host := hosts; Port := 22; Timeout := 0;
               RetryTimeout := 5 * second; CommandTimeout := 60;
               Script := ["whoami"]; Secrets := []; Envs := [];
               Proxy := no_proxy; Debug := false; Sync := sync |};
     Writer := None |}.

(** A world without environment in which the calls of [ssh.Stream] for
    a server are answered by [answers]. *)
Definition world_of (answers : string -> nat -> conn_attempt) : world :=
  {| ToUpper := upper_ascii;
     LookupEnv := fun _ => None;
     Stream := fun ssh _ _ k => answers (mcServer ssh) k |}.

Definition after (ns : N) (r : stream_result) : conn_attempt :=
  {| elapsed := ns; answer := r; deadline_first := false |}.

(** Every connection is refused at once for a wrong password. *)
Definition denied : error := PlainError "ssh: unable to authenticate".
Definition all_denied : world := world_of (fun _ _ => after 1000 (StreamErr denied)).

(** Only the goroutine that called [Exec] moves, [n] times. *)
Definition main_only (n : nat) : schedule := repeat (0%nat, false) n.

(** ** Vocabulary of the statements about [retryStream] *)

(** At the top of the loop before call number [k] (from 0): [wait] has
    doubled [k] times without leaving the range of [time.Duration] and
    the [k] sleeps so far have taken their full time. *)
Definition on_track (k : nat) (now wait : Z) : Prop :=
  wait = 2 ^ Z.of_nat k * second /\
  (2 ^ Z.of_nat k - 1) * second <= now /\
  wait < 2 ^ 63.


Definition transient (r : stream_result) : Prop :=
  exists e, r = StreamErr e /\ isOpError e = true.


(** The shape of a completed call of the loop that started call number
    [k] at [now]: [n] turns that each got a network error and slept
    their whole backoff before the deadline, then a last turn whose
    answer is the result; the time slept is that of the [n] backoffs,
    plus the part of the last one that passed before the deadline. *)
Definition completed_run (deadline : Z) (stream : nat -> conn_attempt)
    (k : nat) (now : Z) (r : retry_result) : Prop :=
  exists n last,
    List.length (rr_iters r) = S n /\
    rr_iters r !! n = Some last /\
    rr_answer r = it_answer last /\
    (forall i it, rr_iters r !! i = Some it ->
       it_wait it = 2 ^ Z.of_nat (k + i) * second /\
       it_answer it = answer (stream (k + i)%nat) /\
       now <= it_done it) /\
    (forall i it, rr_iters r !! i = Some it -> (i < n)%nat ->
       transient (it_answer it) /\ it_done it + it_wait it <= deadline) /\
    (transient (it_answer last) -> deadline <= it_done last + it_wait last) /\
    (2 ^ Z.of_nat (k + n) - 2 ^ Z.of_nat k) * second <= rr_slept r /\
    (~ transient (it_answer last) ->
     rr_slept r = (2 ^ Z.of_nat (k + n) - 2 ^ Z.of_nat k) * second).

(** Every connection is refused by the network, after a microsecond. *)
Definition refused_by_network : error := NetOpError "dial tcp: connection refused".
Definition all_unreachable : world :=
  world_of (fun _ _ => after 1000 (StreamErr refused_by_network)).

Definition one_host : Plugin := sample ["a"] "root" "" "pw" true.

(** ** Vocabulary of the statements about [Plugin.exec] and [Plugin.Exec] *)

(** The value of [err] after the receives [evs]: the last value that
    came from the error channel, or the value it had before. *)
Fixpoint recorded (evs : list event) (err : option error) : option error :=
  match evs with
  | [] => err
  | EvError e :: rest => recorded rest e
  | _ :: rest => recorded rest err
  end.

Definition is_done (ev : event) : bool :=
  match ev with EvDone _ => true | _ => false end.

(** What a list of operations writes, which servers it calls
    [ssh.Stream] for and which errors it sends, in order. *)
Fixpoint writes_of (l : list instr) : list (writer * string) :=
  match l with
  | [] => []
  | IWrite out :: rest => out :: writes_of rest
  | _ :: rest => writes_of rest
  end.

Fixpoint streams_of (l : list instr) : list string :=
  match l with
  | [] => []
  | IStream server :: rest => server :: streams_of rest
  | _ :: rest => streams_of rest
  end.

Fixpoint sends_of (l : list instr) : list error :=
  match l with
  | [] => []
  | ISend e :: rest => e :: sends_of rest
  | _ :: rest => sends_of rest
  end.

Definition is_block (i : instr) : bool :=
  match i with IBlock => true | _ => false end.

(** Operations that neither start a goroutine nor wait for one nor
    leave [Exec]. *)
Definition straight (i : instr) : bool :=
  match i with
  | IWrite _ | IStream _ | ISend _ | IWgAdd _ | IWgDone | IBlock => true
  | IWgWait | IClose | IGo _ | ISelect | IReturn _ => false
  end.

(** The operations of the loop over the hosts when every unit runs on
    the goroutine of [Exec] ([Sync] set), after [wg.Add]. *)
Definition units (w : world) (p : Plugin) : list instr :=
  flat_map (exec w p) (Host (Cfg p)).

(** What [Exec] does after the loop and after starting the goroutine
    that closes [finished]. *)
Definition from_select : list instr := ISelect :: map Println banner ++ [IReturn None].

(** The goroutine of [Exec] is alone and in the loop: of the operations
    [U] of the loop it has made [done] and has [rest] ahead.  Nothing
    was received from [errChannel], so it holds the first error sent, and
    a second send would not have come through. *)
Definition looping (U done rest : list instr) (st : state) : Prop :=
  U = (done ++ rest)%list /\
  threads st = [(rest ++ IGo closer :: from_select)%list] /\
  returned st = None /\
  streams st = streams_of done /\
  output st = writes_of done /\
  errChannel st = head (sends_of done) /\
  (List.length (sends_of done) <= 1)%nat /\
  existsb is_block done = false.

(** Whether the goroutine of [Exec], alone, can make the operation [i]
    in the state [st]. *)
Definition can_move (i : instr) (st : state) : Prop :=
  match i with
  | IBlock => False
  | ISend _ => errChannel st = None
  | _ => True
  end.

(** Where a run of [Exec] in sync mode can be, for the operations [U]
    of the loop:
    - in the loop, with [done] behind it and [rest] ahead;
    - past the loop, [j] operations into [from_select], the closing
      goroutine [k] operations into [closer];
    - returned. *)
Inductive sync_phase (U : list instr) : state -> Prop :=
| in_loop (st : state) (done rest : list instr) :
    looping U done rest st ->
    sync_phase U st
| past_loop (st : state) (j k : nat) :
    threads st = [drop j from_select; drop k closer] ->
    returned st = None ->
    streams st = streams_of U ->
    output st = (writes_of U ++ writes_of (take j from_select))%list ->
    errChannel st = head (sends_of U) ->
    (List.length (sends_of U) <= 1)%nat ->
    existsb is_block U = false ->
    sync_phase U st
| has_returned (st : state) (r : option error) :
    returned st = Some r ->
    streams st = streams_of U ->
    (forall e, r = Some e -> head (sends_of U) = Some e /\ output st = writes_of U) ->
    (r = None -> output st = (writes_of U ++ writes_of from_select)%list) ->
    (List.length (sends_of U) <= 1)%nat ->
    existsb is_block U = false ->
    sync_phase U st.

Definition two_hosts : Plugin := sample ["a"; "b"] "root" "" "pw" true.

(** The command prints one line and completes in time. *)
Definition prints_root : stream_result := StreamOk [EvOut "root"; EvDone true].

(** Host a refuses the password; every other host runs the command. *)
Definition a_denied : world :=
  world_of (fun server _ =>
              if String.eqb server "a" then after 1000 (StreamErr denied)
              else after 1000 prints_root).

(** ** Vocabulary of the statements about the forwarded environment *)

(** The variables of the list [envs] that are set in the environment,
    under their upper-case names and with their values, in the order of
    the list. *)
Fixpoint bindings (w : world) (envs : list string) : list (string * string) :=
  match envs with
  | [] => []
  | key :: rest =>
      match LookupEnv w (ToUpper w key) with
      | Some val => (ToUpper w key, val) :: bindings w rest
      | None => bindings w rest
      end
  end.

(** A byte without a meaning of its own for the shell, and a string of
    such bytes. *)
Definition plain_byte (c : ascii) : bool :=
  negb (is_quote c || is_backslash c || is_blank c || sh_unsupported c).

Fixpoint plain (s : string) : bool :=
  match s with
  | EmptyString => true
  | String c rest => plain_byte c && plain rest
  end.

(** A plugin like [p] with another retry timeout. *)
Definition with_retry_timeout (p : Plugin) (d : Z) : Plugin :=
  let c := Cfg p in
  {| Cfg := {| Key := Key c; KeyPath := KeyPath c; UserName := UserName c;
               Password := Password c; Host := Host c; Port := Port c;
               Timeout := Timeout c; RetryTimeout := d;
               CommandTimeout := CommandTimeout c; Script := Script c;
               Secrets := Secrets c; Envs := Envs c; Proxy := Proxy c;
               Debug := Debug c; Sync := Sync c |};
     Writer := Writer p |}.

(** An environment with two variables, one of them with a quote and a
    blank in its value. *)
Definition two_variables : world :=
  {| ToUpper := upper_ascii;
     LookupEnv := fun key =>
       if String.eqb key "NAME" then Some "Miles O'Brien"
       else if String.eqb key "RANK" then Some "chief"
       else None;
     Stream := fun _ _ _ _ => after 1000 prints_root |}.

(** ** Vocabulary of the statements about every mode of [Plugin.Exec] *)

(** The errors an operation can send or return, also from a goroutine
    it starts. *)
Fixpoint deep_sends (i : instr) : list error :=
  match i with
  | ISend e => [e]
  | IReturn (Some e) => [e]
  | IGo body => flat_map deep_sends body
  | _ => []
  end.

(** Every error in the state, waiting to be sent, in [errChannel] or
    returned, satisfies [P]. *)
Definition errors_within (P : error -> Prop) (st : state) : Prop :=
  (forall e, errChannel st = Some e -> P e) /\
  Forall (Forall (fun i => Forall P (deep_sends i))) (threads st) /\
  (forall e, returned st = Some (Some e) -> P e).

(** [e] is one of the errors that the unit of some configured host
    sends. *)
Definition reported (w : world) (p : Plugin) (e : error) : Prop :=
  exists host, In host (Host (Cfg p)) /\ In e (sends_of (exec w p host)).

(** What a list of operations adds to the counter of the wait group. *)
Fixpoint wg_delta (l : list instr) : Z :=
  match l with
  | [] => 0
  | IWgAdd n :: rest => n + wg_delta rest
  | IWgDone :: rest => -1 + wg_delta rest
  | _ :: rest => wg_delta rest
  end.

(** The goroutine of [Exec] goes through the loop, starts the closing
    goroutine and stops at the [select]; the closing goroutine waits
    and closes [finished]; the [select] takes the closed channel, and
    [Exec] prints the banner and returns. *)
Definition closer_first (loop : nat) : schedule :=
  (main_only (loop + 2) ++ [(1%nat, true); (1%nat, true); (0%nat, true)] ++ main_only 4)%list.

(** Every host runs the command. *)
Definition all_fine : world := world_of (fun _ _ => after 1000 prints_root).

(** [two_hosts] without the sync flag. *)
Definition two_hosts_async : Plugin := sample ["a"; "b"] "root" "" "pw" false.

(** Goroutine [tid] moves [n] times. *)
Definition only (tid n : nat) : schedule := repeat (tid, false) n.

(** What the loop of [Plugin.exec] writes for the receives [evs]: one
    line for every line of standard output and of standard error. *)
Fixpoint lines_logged (p : Plugin) (host : string) (evs : list event)
    : list (writer * string) :=
  match evs with
  | [] => []
  | EvOut line :: rest => log p host ["out:"; line] :: lines_logged p host rest
  | EvErr line :: rest => log p host ["err:"; line] :: lines_logged p host rest
  | _ :: rest => lines_logged p host rest
  end.

(** The command fails and times out: an error from the error channel,
    then the completion flag at false. *)
Definition fails_and_times_out : stream_result :=
  StreamOk [EvErr "oops"; EvError (Some (PlainError "Process exited with status 1"));
            EvDone false; EvOut "late"].

(** On every host the command fails and times out. *)
Definition all_fail_and_time_out : world :=
  world_of (fun _ _ => after 1000 fails_and_times_out).

(** A schedule under which the [select] of [Exec] takes the error case
    whenever that case is ready. *)
Definition error_first (sched : schedule) : bool :=
  forallb (fun c => negb (snd c)) sched.

(** [Exec] has returned [e], or it has not returned and still has its
    [select] ahead. *)
Definition pending (e : error) (st : state) : Prop :=
  returned st = Some (Some e) \/
  (returned st = None /\
   exists prog, threads st !! 0%nat = Some prog /\ In ISelect prog).

(** * Properties *)

(** ** [escapeArg] *)

Lemma replace_quote_step (c : ascii) (rest : string) :
  replace_from O quote escaped_quote (String c rest) =
  if is_quote c then escaped_quote ++ replace_from O quote escaped_quote rest
  else String c (replace_from O quote escaped_quote rest).
Proof.
  unfold is_quote. cbn [replace_from String.prefix quote].
  destruct (ascii_dec "'"%char c) as [<-|Hne].
  - destruct rest; reflexivity.
  - destruct (Ascii.eqb_spec c "'"%char) as [Heq|_]; [congruence|reflexivity].
Qed.

Lemma ReplaceAll_escape_quotes (arg : string) :
  ReplaceAll arg quote escaped_quote = escape_quotes arg.
Proof.
  unfold ReplaceAll.
  induction arg as [|c rest IH]; [reflexivity|].
  rewrite replace_quote_step. cbn [escape_quotes].
  now rewrite IH.
Qed.

Lemma append_empty_r (s : string) : s ++ "" = s.
Proof. induction s as [|c s IH]; cbn; [reflexivity | now rewrite IH]. Qed.

Lemma append_assoc (s t u : string) : (s ++ t) ++ u = s ++ (t ++ u).
Proof. induction s as [|c s IH]; cbn; [reflexivity | now rewrite IH]. Qed.

(** Read inside single quotes, the escaped bytes of [arg] add exactly
    [arg] to the word being read and leave the shell inside the quotes. *)
Lemma sh_words_escape_quotes (arg : string) :
  forall (w rest : string),
    sh_words InSingleQuotes (Some w) (escape_quotes arg ++ rest) =
    sh_words InSingleQuotes (Some (w ++ arg)) rest.
Proof.
  induction arg as [|c arg IH]; intros w rest.
  - cbn. now rewrite append_empty_r.
  - cbn [escape_quotes]. destruct (is_quote c) eqn:Hq.
    + apply Ascii.eqb_eq in Hq. subst c.
      unfold escaped_quote. cbn -[escape_quotes]. rewrite IH.
      now rewrite append_assoc.
    + cbn [append sh_words]. rewrite Hq. cbn [push].
      rewrite IH. now rewrite append_assoc.
Qed.

(** C8. [escapeArg] puts the value between single quotes and replaces
    every single quote inside it by the escaped-quote sequence, and a
    POSIX shell reads the result back as one word that is the value
    itself, whatever blanks or quotes it contains; the value O'Brien
    comes back as O'Brien. *)
Theorem escapeArg_round_trip :
  (forall arg, escapeArg arg = quote ++ escape_quotes arg ++ quote) /\
  (forall arg, sh_parse (escapeArg arg) = Some [arg]) /\
  escapeArg "O'Brien" = "'O'\''Brien'" /\
  sh_parse (escapeArg "O'Brien") = Some ["O'Brien"].
Proof.
  assert (Hshape : forall arg, escapeArg arg = quote ++ escape_quotes arg ++ quote).
  { intros arg. unfold escapeArg. now rewrite ReplaceAll_escape_quotes. }
  assert (Hparse : forall arg, sh_parse (escapeArg arg) = Some [arg]).
  { intros arg. rewrite Hshape. unfold sh_parse, quote.
    cbn [append sh_words is_quote Ascii.eqb Bool.eqb open_word].
    rewrite sh_words_escape_quotes. reflexivity. }
  repeat split; auto.
Qed.

(** ** [Plugin.log] *)

(** C9. With exactly one configured host a log line is written as it
    is; with more than one it is written after the host and a colon and
    a space.  Either way it goes to the plugin's writer, or to standard
    output when there is none. *)
Theorem log_prefix_by_host_count (p : Plugin) (host : string) (message : list string) :
  fst (log p host message) = match Writer p with None => Stdout | Some w => w end /\
  (List.length (Host (Cfg p)) = 1%nat ->
   snd (log p host message) = Sprintln message) /\
  ((1 < List.length (Host (Cfg p)))%nat ->
   snd (log p host message) = host ++ ": " ++ Sprintln message).
Proof.
  unfold log.
  destruct (Nat.eqb_spec (List.length (Host (Cfg p))) 1) as [H1|H1];
    repeat split; cbn; intros; try reflexivity; lia.
Qed.

(** ** The checks of [Plugin.Exec] *)

Lemma Exec_refused (w : world) (p : Plugin) (sched : schedule) (err : error) :
  validate p = Some err -> Exec w p sched = refused err.
Proof. unfold Exec. now intros ->. Qed.

(** C10. The checks are made in the order host and user, credentials
    present, key and password together, and [Exec] returns the error of
    the first one that fails, before anything is written or any host is
    contacted.  A configuration with a key and a password but no host
    and no user is refused for the missing host or user. *)
Theorem validation_order (w : world) (p : Plugin) (sched : schedule) :
  (noHostAndUser (Cfg p) = true ->
   Exec w p sched = refused (Errorf missingHostOrUser)) /\
  (noHostAndUser (Cfg p) = false -> noPasswordOrKey (Cfg p) = true ->
   Exec w p sched = refused (Errorf missingPasswordOrKey)) /\
  (noHostAndUser (Cfg p) = false -> noPasswordOrKey (Cfg p) = false ->
   passwordAndKey (Cfg p) = true ->
   Exec w p sched = refused (Errorf setPasswordandKey)) /\
  (Host (Cfg p) = [] -> UserName (Cfg p) = "" ->
   Key (Cfg p) <> "" -> Password (Cfg p) <> "" ->
   passwordAndKey (Cfg p) = true /\
   Exec w p sched = refused (Errorf missingHostOrUser)).
Proof.
  repeat split.
  - intros H. apply Exec_refused. unfold validate. now rewrite H.
  - intros H1 H2. apply Exec_refused. unfold validate. now rewrite H1, H2.
  - intros H1 H2 H3. apply Exec_refused. unfold validate. now rewrite H1, H2, H3.
  - unfold passwordAndKey.
    destruct (Key (Cfg p)); [congruence|].
    destruct (Password (Cfg p)); [congruence|]. reflexivity.
  - apply Exec_refused. unfold validate, noHostAndUser.
    rewrite H, H0. reflexivity.
Qed.

Lemma log_prefix_by_host_count_witness :
  snd (log (sample ["a"] "root" "" "pw" false) "a" ["out:"; "hello"])
  = Sprintln ["out:"; "hello"] /\
  snd (log (sample ["a"; "b"] "root" "" "pw" false) "b" ["out:"; "hello"])
  = "b: " ++ Sprintln ["out:"; "hello"].
Proof.
  split.
  - apply (log_prefix_by_host_count (sample ["a"] "root" "" "pw" false)). reflexivity.
  - apply (log_prefix_by_host_count (sample ["a"; "b"] "root" "" "pw" false)). simpl. lia.
Defined.

Lemma validation_order_witness :
  Exec all_denied (sample [] "" "k" "pw" true) [] = refused (Errorf missingHostOrUser) /\
  Exec all_denied (sample ["a"] "root" "" "" true) [] = refused (Errorf missingPasswordOrKey) /\
  Exec all_denied (sample ["a"] "root" "k" "pw" true) [] = refused (Errorf setPasswordandKey) /\
  (passwordAndKey (Cfg (sample [] "" "k" "pw" true)) = true /\
   Exec all_denied (sample [] "" "k" "pw" true) [] = refused (Errorf missingHostOrUser)).
Proof.
  split; [|split; [|split]].
  - exact (proj1 (validation_order all_denied (sample [] "" "k" "pw" true) [])
             eq_refl).
  - exact (proj1 (proj2 (validation_order all_denied (sample ["a"] "root" "" "" true) []))
             eq_refl eq_refl).
  - exact (proj1 (proj2 (proj2
             (validation_order all_denied (sample ["a"] "root" "k" "pw" true) [])))
             eq_refl eq_refl eq_refl).
  - apply (proj2 (proj2 (proj2
             (validation_order all_denied (sample [] "" "k" "pw" true) []))));
      cbn; congruence.
Defined.

(** C1.  The first check refuses a configuration only when the host
    list and the user name are both empty.  With an empty host list and
    the user root, [Exec] passes the checks, contacts nobody, prints the
    banner and returns nil; with the host a and an empty user name it
    passes the checks as well and calls [ssh.Stream] for a. *)
Theorem Exec_accepts_missing_host (w : world) :
  let p := sample [] "root" "" "pw" true in
  let final := Exec w p (main_only 2 ++ [(1%nat, false); (1%nat, false)] ++ main_only 5)%list in
  validate p = None /\
  returned final = Some None /\
  output final = map (fun s => (Stdout, Sprintln [s])) banner /\
  streams final = [] /\
  validate (sample ["a"] "" "" "pw" true) = None /\
  streams (Exec all_denied (sample ["a"] "" "" "pw" true) (main_only 5)) = ["a"].
Proof. repeat split. Qed.

(** ** [retryStream] *)

Lemma wrap64_small (x : Z) : - 2 ^ 63 <= x < 2 ^ 63 -> wrap64 x = x.
Proof.
  intros H. unfold wrap64.
  change (2 ^ 63) with 9223372036854775808 in *.
  change (2 ^ 64) with 18446744073709551616.
  rewrite Z.mod_small; lia.
Qed.

(** A doubled second that is below the largest duration plus one second
    has been doubled at most 33 times, and is a duration. *)
Lemma doubled_second_bound (n : nat) :
  2 ^ Z.of_nat n * second < 2 ^ 63 + second ->
  (n <= 33)%nat /\ 2 ^ Z.of_nat n * second < 2 ^ 63.
Proof.
  intros H.
  destruct (le_lt_dec n 33) as [Hle|Hgt].
  - split; [exact Hle|].
    assert (2 ^ Z.of_nat n <= 2 ^ 33) by (apply Z.pow_le_mono_r; lia).
    change (2 ^ 33) with 8589934592 in *.
    change (2 ^ 63) with 9223372036854775808. unfold second. lia.
  - exfalso.
    assert (2 ^ 34 <= 2 ^ Z.of_nat n) by (apply Z.pow_le_mono_r; lia).
    change (2 ^ 34) with 17179869184 in *.
    change (2 ^ 63) with 9223372036854775808 in H. unfold second in H. lia.
Qed.

Lemma pow2_succ (k : nat) : 2 ^ Z.of_nat (S k) = 2 * 2 ^ Z.of_nat k.
Proof. rewrite Nat2Z.inj_succ, Z.pow_succ_r; lia. Qed.

Lemma pow2_pos (k : nat) : 0 < 2 ^ Z.of_nat k.
Proof. apply Z.pow_pos_nonneg; lia. Qed.

Lemma on_track_start : on_track 0 0 second.
Proof. unfold on_track, second. cbn. lia. Qed.

(** When the [select] takes the backoff timer, the sleep was complete
    and ended no later than the deadline, and the doubled wait is still
    a duration. *)
Lemma on_track_next (deadline : Z) (k : nat) (now wait t : Z) (tie : bool) :
  deadline < 2 ^ 63 -> on_track k now wait -> now <= t ->
  (Z.max t deadline <? Z.max t (t + wait)) || ((Z.max t deadline =? Z.max t (t + wait)) && tie)
  = false ->
  Z.max t (t + wait) = t + wait /\ t + wait <= deadline /\
  on_track (S k) (Z.max t (t + wait)) (wrap64 (wait * 2)).
Proof.
  intros Hdl (Hw & Hnow & Hrange) Ht Hsel.
  apply orb_false_elim in Hsel as [Hlt _]. apply Z.ltb_ge in Hlt.
  pose proof (pow2_pos k) as Hpos.
  assert (0 < wait) by (unfold second in Hw; lia).
  assert (Hmax : Z.max t (t + wait) = t + wait) by lia.
  assert (Hle : t + wait <= deadline) by lia.
  assert (Hb : 2 ^ Z.of_nat (S k) * second < 2 ^ 63 + second).
  { rewrite pow2_succ. unfold second in *. lia. }
  apply doubled_second_bound in Hb as [_ Hb].
  rewrite pow2_succ in Hb.
  repeat split; try assumption.
  - rewrite wrap64_small; [rewrite pow2_succ; lia|].
    unfold second in *. lia.
  - rewrite Hmax, pow2_succ. unfold second in *. lia.
  - rewrite wrap64_small; unfold second in *; lia.
Qed.

(** The loop ends: a state on track is at most 33 doublings in, and
    each turn either returns or doubles once more. *)
Lemma retry_loop_returns (deadline : Z) (stream : nat -> conn_attempt) :
  deadline < 2 ^ 63 ->
  forall fuel k now wait,
    on_track k now wait -> (34 <= k + fuel)%nat ->
    exists r, retry_loop fuel deadline stream k now wait = Some r.
Proof.
  intros Hdl fuel.
  induction fuel as [|fuel IH]; intros k now wait Htrack Hfuel.
  - exfalso. destruct Htrack as (Hw & _ & Hrange).
    assert (Hb : 2 ^ Z.of_nat k * second < 2 ^ 63 + second)
      by (unfold second in *; lia).
    apply doubled_second_bound in Hb. lia.
  - cbn [retry_loop].
    destruct (answer (stream k)) as [evs|err]; [eauto|].
    destruct (isOpError err); cbn [negb]; [|eauto].
    match goal with |- context [if ?c then _ else _] => destruct c eqn:Hsel end; [eauto|].
    apply on_track_next with (k := k) (now := now) in Hsel as (_ & _ & Hnext);
      [|assumption..|lia].
    destruct (IH (S k) _ _ Hnext ltac:(lia)) as [r ->]. eauto.
Qed.

Lemma lookup_one_turn (it : iteration) (i : nat) (it' : iteration) :
  [it] !! i = Some it' -> i = 0%nat /\ it' = it.
Proof. destruct i as [|i]; cbn; [intros [= <-]; auto | destruct i; discriminate]. Qed.

(** A turn that returns. *)
Lemma completed_run_one_turn (deadline : Z) (stream : nat -> conn_attempt)
    (k : nat) (now wait t slept : Z) :
  on_track k now wait -> now <= t -> 0 <= slept ->
  let it := {| it_wait := wait; it_done := t; it_answer := answer (stream k) |} in
  (transient (it_answer it) -> deadline <= t + wait) ->
  (~ transient (it_answer it) -> slept = 0) ->
  completed_run deadline stream k now (one_turn it slept).
Proof.
  intros Htrack Hnow Hslept it Hlast Hexact.
  exists 0%nat, it. cbn. rewrite Nat.add_0_r.
  split; [reflexivity|]. split; [reflexivity|]. split; [reflexivity|].
  split; [|split; [|split; [|split]]].
  - intros i it' H. apply lookup_one_turn in H as [-> ->].
    rewrite Nat.add_0_r. cbn. repeat split; [apply Htrack|exact Hnow].
  - intros i it' _ H. lia.
  - exact Hlast.
  - lia.
  - intros H. rewrite (Hexact H). lia.
Qed.

(** What a completed call of the loop looks like. *)
Lemma retry_loop_spec (deadline : Z) (stream : nat -> conn_attempt) :
  deadline < 2 ^ 63 ->
  forall fuel k now wait r,
    on_track k now wait ->
    retry_loop fuel deadline stream k now wait = Some r ->
    completed_run deadline stream k now r.
Proof.
  intros Hdl fuel.
  induction fuel as [|fuel IH]; intros k now wait r Htrack Hrun; [discriminate|].
  cbn [retry_loop] in Hrun.
  set (t := now + Z.of_N (elapsed (stream k))) in *.
  assert (Hnow : now <= t) by (subst t; lia).
  pose proof (completed_run_one_turn deadline stream k now wait t) as Hone.
  cbn zeta in Hone.
  destruct (answer (stream k)) as [evs|err] eqn:Hans.
  - injection Hrun as <-. apply Hone; try assumption; try lia.
    intros (e & He & _). cbn in He. congruence.
  - destruct (isOpError err) eqn:Hop; cbn [negb] in Hrun.
    2:{ injection Hrun as <-. apply Hone; try assumption; try lia.
        intros (e & He & Hnet). cbn in He. congruence. }
    match type of Hrun with context [if ?c then _ else _] => destruct c eqn:Hsel end.
    + injection Hrun as <-. apply Hone; try assumption; try lia.
      * intros _.
        destruct Htrack as (Hw & _ & _). pose proof (pow2_pos k).
        apply orb_true_iff in Hsel as [Hlt|Heq].
        -- apply Z.ltb_lt in Hlt. unfold second in *. lia.
        -- apply andb_true_iff in Heq as [Heq _]. apply Z.eqb_eq in Heq.
           unfold second in *. lia.
      * intros Hnot. exfalso. apply Hnot. exists err. cbn. auto.
    + destruct (retry_loop fuel deadline stream (S k) _ _) as [r'|] eqn:Hrec;
        [|discriminate].
      injection Hrun as <-.
      pose proof Hsel as Hsel'.
      apply on_track_next with (k := k) (now := now) in Hsel'
        as (Hmax & Hfull & Hnext); try assumption.
      destruct (IH _ _ _ _ Hnext Hrec)
        as (n & last & Hlen & Hlast & Hres & Hall & Hbefore & Hend & Hslept & Hexact).
      exists (S n), last. cbn [and_then rr_iters rr_answer rr_slept].
      split; [cbn; now rewrite Hlen|]. split; [exact Hlast|]. split; [exact Hres|].
      split; [|split; [|split; [|split]]].
      * intros i it H. destruct i as [|i]; cbn in H.
        -- injection H as <-. rewrite Nat.add_0_r. cbn.
           repeat split; [apply Htrack|now rewrite Hans|exact Hnow].
        -- apply Hall in H as (Hw & Ha & Hd). rewrite Nat.add_succ_r.
           repeat split; [exact Hw|exact Ha|lia].
      * intros i it H Hlt. destruct i as [|i]; cbn in H.
        -- injection H as <-. cbn. split; [exists err; auto|exact Hfull].
        -- apply Hbefore in H; [exact H|lia].
      * exact Hend.
      * rewrite Nat.add_succ_r. cbn [Nat.add] in Hslept.
        destruct Htrack as (Hw & _ & _).
        rewrite (pow2_succ (k + n)), (pow2_succ k) in Hslept.
        rewrite pow2_succ. unfold second in *. lia.
      * intros Hnot. specialize (Hexact Hnot).
        rewrite Nat.add_succ_r. cbn [Nat.add] in Hexact.
        destruct Htrack as (Hw & _ & _).
        rewrite (pow2_succ (k + n)), (pow2_succ k) in Hexact.
        rewrite pow2_succ. unfold second in *. lia.
Qed.




(** [retryStream] returns, and its run has the shape of [completed_run]
    from the first call on. *)
Lemma retryStream_spec (w : world) (ssh : MakeConfig) (p : Plugin) :
  int64 (RetryTimeout (Cfg p)) ->
  exists r,
    retryStream w ssh p = Some r /\
    completed_run (RetryTimeout (Cfg p))
      (Stream w ssh (Join (Script (Cfg p)) newline) (CommandTimeout (Cfg p))) 0 0 r.
Proof.
  intros [_ Hdl]. unfold retryStream.
  destruct (retry_loop_returns _ (Stream w ssh (Join (Script (Cfg p)) newline)
                                    (CommandTimeout (Cfg p))) Hdl retry_fuel 0 0 second)
    as [r Hr]; [apply on_track_start|unfold retry_fuel; lia|].
  exists r. split; [exact Hr|].
  eapply retry_loop_spec; eauto using on_track_start.
Qed.




Lemma sample_deadline_int64 (hosts : list string) (user key password : string) (sync : bool) :
  int64 (RetryTimeout (Cfg (sample hosts user key password sync))).
Proof. unfold int64. cbn. unfold second. change (2 ^ 63) with 9223372036854775808. lia. Qed.

(** With a deadline of five seconds and an unreachable host there are
    three calls; the waits are one, two and four seconds and the third
    is cut by the deadline. *)
Example unreachable_run :
  option_map (fun r => (rr_answer r, map it_wait (rr_iters r), map it_done (rr_iters r),
                        rr_slept r))
    (retryStream all_unreachable (ssh_config one_host "a") one_host)
  = Some (StreamErr refused_by_network,
          [1 * second; 2 * second; 4 * second],
          [1000; 1 * second + 2000; 3 * second + 3000],
          5 * second - 3000).
Proof. vm_compute. reflexivity. Qed.




(** ** The loop of [Plugin.exec] *)


(** ** [Plugin.Exec] in sync mode *)

Lemma writes_of_app (l1 l2 : list instr) :
  writes_of (l1 ++ l2) = (writes_of l1 ++ writes_of l2)%list.
Proof.
  induction l1 as [|i l1 IH]; [reflexivity|].
  destruct i; cbn; rewrite ?IH; reflexivity.
Qed.

Lemma streams_of_app (l1 l2 : list instr) :
  streams_of (l1 ++ l2) = (streams_of l1 ++ streams_of l2)%list.
Proof.
  induction l1 as [|i l1 IH]; [reflexivity|].
  destruct i; cbn; rewrite ?IH; reflexivity.
Qed.

Lemma sends_of_app (l1 l2 : list instr) :
  sends_of (l1 ++ l2) = (sends_of l1 ++ sends_of l2)%list.
Proof.
  induction l1 as [|i l1 IH]; [reflexivity|].
  destruct i; cbn; rewrite ?IH; reflexivity.
Qed.

Lemma move_returned (st : state) (c : nat * bool) (r : option error) :
  returned st = Some r -> move st c = st.
Proof. intros H. unfold move, step. now rewrite H. Qed.

Ltac settle_phase :=
  cbn;
  rewrite ?streams_of_app, ?writes_of_app, ?sends_of_app, ?existsb_app, ?app_nil_r;
  cbn; rewrite ?app_nil_r, ?orb_false_r;
  first [assumption | reflexivity | congruence | lia].

(** One operation of the loop, made by the goroutine of [Exec]. *)
Lemma looping_step (U done rest : list instr) (i : instr) (st : state) (pick : bool) :
  looping U done (i :: rest) st -> straight i = true -> can_move i st ->
  looping U (done ++ [i]) rest (move st (0%nat, pick)).
Proof.
  intros (HU & Hthreads & Hret & Hstreams & Hout & Hchan & Hone & Hblock) Hi Hcan.
  assert (HU' : U = ((done ++ [i]) ++ rest)%list) by (now rewrite <- app_assoc).
  assert (Hnil : errChannel st = None -> sends_of done = []).
  { rewrite Hchan. destruct (sends_of done); [reflexivity|discriminate]. }
  unfold move, step. cbn [fst snd]. rewrite Hret, Hthreads.
  cbn [lookup list_lookup app].
  destruct i; try discriminate Hi; cbn in Hcan; try contradiction;
    rewrite ?Hcan; unfold looping; rewrite ?sends_of_app, ?(Hnil Hcan);
    repeat split; settle_phase.
Qed.

(** A move in the loop: only the goroutine of [Exec] exists. *)
Lemma sync_phase_in_loop (U : list instr) (st : state) (done rest : list instr)
    (c : nat * bool) :
  forallb straight U = true ->
  looping U done rest st ->
  sync_phase U (move st c).
Proof.
  intros Hstraight Hloop.
  assert (Hstay : sync_phase U st) by (eapply in_loop; eauto).
  destruct c as [tid pick].
  destruct tid as [|tid].
  - destruct rest as [|i rest].
    + destruct Hloop as (HU & Hthreads & Hret & Hstreams & Hout & Hchan & Hone & Hblock).
      unfold move, step. cbn [fst snd]. rewrite Hret, Hthreads. cbn.
      rewrite app_nil_r in HU. subst done.
      apply (past_loop U _ 0 0); settle_phase.
    + assert (Hi : straight i = true).
      { destruct Hloop as (HU & _).
        rewrite HU, forallb_app in Hstraight. cbn in Hstraight.
        apply andb_true_iff in Hstraight as [_ H].
        now apply andb_true_iff in H as [H _]. }
      assert (Hdec : can_move i st \/ move st (0%nat, pick) = st).
      { destruct Hloop as (_ & Hthreads & Hret & _).
        destruct i; cbn [can_move]; try (left; exact I).
        - destruct (errChannel st) eqn:Hfull; [right|left; reflexivity].
          unfold move, step. cbn [fst snd]. rewrite Hret, Hthreads. cbn.
          now rewrite Hfull.
        - right. unfold move, step. cbn [fst snd]. now rewrite Hret, Hthreads. }
      destruct Hdec as [Hcan| ->]; [|exact Hstay].
      eapply in_loop. eapply looping_step; eassumption.
  - destruct Hloop as (_ & Hthreads & Hret & _).
    unfold move, step. cbn [fst snd]. rewrite Hret, Hthreads.
    destruct tid; exact Hstay.
Qed.

(** A move past the loop: the goroutine of [Exec] is at the [select] or
    behind it, the closing goroutine runs beside it. *)
Lemma sync_phase_past_loop (U : list instr) (st : state) (j k : nat) (c : nat * bool) :
  threads st = [drop j from_select; drop k closer] ->
  returned st = None ->
  streams st = streams_of U ->
  output st = (writes_of U ++ writes_of (take j from_select))%list ->
  errChannel st = head (sends_of U) ->
  (List.length (sends_of U) <= 1)%nat ->
  existsb is_block U = false ->
  sync_phase U (move st c).
Proof.
  intros Hthreads Hret Hstreams Hout Hchan Hone Hblock.
  assert (Hstay : sync_phase U st) by (eapply past_loop; eauto).
  destruct c as [tid pick]. unfold move, step. cbn [fst snd].
  rewrite Hret, Hthreads.
  destruct tid as [|[|tid]]; cbn [lookup list_lookup].
  - (* the goroutine of Exec *)
    destruct j as [|[|[|[|[|j]]]]]; cbn [drop from_select map banner app];
      cbn in Hout; rewrite ?app_nil_r in Hout.
    + destruct (errChannel st) as [e|] eqn:Hfull; destruct (finished st).
      * destruct pick.
        -- apply (past_loop U _ 1 k); settle_phase.
        -- apply (has_returned U _ (Some e)); try settle_phase.
           intros e' [= <-]. split; [congruence|exact Hout].
      * apply (has_returned U _ (Some e)); try settle_phase.
        intros e' [= <-]. split; [congruence|exact Hout].
      * apply (past_loop U _ 1 k); settle_phase.
      * exact Hstay.
    + apply (past_loop U _ 2 k); settle_phase.
    + apply (past_loop U _ 3 k); try settle_phase.
      cbn. rewrite Hout. now rewrite <- app_assoc.
    + apply (past_loop U _ 4 k); try settle_phase.
      cbn. rewrite Hout. now rewrite <- app_assoc.
    + apply (has_returned U _ None); settle_phase.
    + destruct j; exact Hstay.
  - (* the closing goroutine *)
    destruct k as [|[|k]]; cbn [drop closer].
    + destruct (wg st =? 0); [|exact Hstay].
      apply (past_loop U _ j 1); settle_phase.
    + apply (past_loop U _ j 2); settle_phase.
    + destruct k; exact Hstay.
  - destruct tid; exact Hstay.
Qed.

(** The three phases are closed under every move. *)
Lemma sync_phase_move (U : list instr) (st : state) (c : nat * bool) :
  forallb straight U = true -> sync_phase U st -> sync_phase U (move st c).
Proof.
  intros Hstraight Hphase.
  destruct Hphase as [st' done rest ?|st' j k ? ? ? ? ? ? ?|st' r Hret ? ? ? ? ?].
  - eapply sync_phase_in_loop; eassumption.
  - eapply sync_phase_past_loop; eassumption.
  - rewrite (move_returned _ _ _ Hret). now apply (has_returned U _ r).
Qed.

Lemma sync_phase_run (U : list instr) (sched : schedule) :
  forallb straight U = true ->
  forall st, sync_phase U st -> sync_phase U (run sched st).
Proof.
  intros Hstraight. unfold run.
  induction sched as [|c sched IH]; intros st Hst; [exact Hst|].
  cbn. apply IH. now apply sync_phase_move.
Qed.

Lemma forallb_straight_writes (l : list (writer * string)) :
  forallb straight (map IWrite l) = true.
Proof. induction l; cbn; auto. Qed.

Lemma forallb_straight_sends (l : list error) :
  forallb straight (map ISend l) = true.
Proof. induction l; cbn; auto. Qed.

Lemma forallb_straight_streams (host : string) (n : nat) :
  forallb straight (repeat (IStream host) n) = true.
Proof. induction n; cbn; auto. Qed.

(** A unit never starts a goroutine, waits for one or leaves [Exec]. *)
Lemma exec_straight (w : world) (p : Plugin) (host : string) :
  forallb straight (exec w p host) = true.
Proof.
  unfold exec.
  generalize (retryStream w (ssh_config p host)
                (with_script p (forward_env w (Envs (Cfg p)) ++ Script (Cfg p))%list)).
  intros o. rewrite !forallb_app.
  assert (Htail : forallb straight
            (match o with
             | Some r =>
                 repeat (IStream host) (List.length (rr_iters r)) ++
                 match rr_answer r with
                 | StreamOk evs =>
                     map IWrite
                       (mx_writes
                          (multiplex
                             (with_script p
                                (forward_env w (Envs (Cfg p)) ++ Script (Cfg p))%list)
                             host evs None)) ++
                     match
                       mx_exit
                         (multiplex
                            (with_script p
                               (forward_env w (Envs (Cfg p)) ++ Script (Cfg p))%list)
                            host evs None)
                     with
                     | Some (err, isTimeout) => map ISend (reports err isTimeout)
                     | None => [IBlock]
                     end
                 | StreamErr err => [ISend err]
                 end
             | None => [IBlock]
             end)%list = true).
  { destruct o as [r|]; [|reflexivity].
    rewrite forallb_app, forallb_straight_streams.
    destruct (rr_answer r) as [evs|err]; [|reflexivity].
    rewrite forallb_app, forallb_straight_writes.
    destruct (mx_exit _) as [[err b]|]; [|reflexivity].
    now rewrite forallb_straight_sends. }
  rewrite Htail. destruct (Debug (Cfg p)); reflexivity.
Qed.

Lemma units_straight (w : world) (p : Plugin) : forallb straight (units w p) = true.
Proof.
  unfold units. induction (Host (Cfg p)) as [|host hosts IH]; [reflexivity|].
  cbn [flat_map]. now rewrite forallb_app, exec_straight, IH.
Qed.

(** In sync mode the body of [Exec] is the units one after another,
    then the closing goroutine, the [select], the banner and the
    return. *)
Lemma fanout_sync (w : world) (p : Plugin) :
  Sync (Cfg p) = true ->
  fanout w p =
  ((IWgAdd (Z.of_nat (List.length (Host (Cfg p)))) :: units w p)
     ++ IGo closer :: from_select)%list.
Proof.
  intros Hsync. unfold fanout, units, from_select. rewrite Hsync.
  cbn [app]. f_equal.
Qed.

Lemma looping_start (U : list instr) :
  looping U [] U (start (U ++ IGo closer :: from_select)).
Proof. unfold looping. cbn. repeat split; lia. Qed.

(** Every state of a run in sync mode is in one of the three phases. *)
Lemma Exec_sync_phase (w : world) (p : Plugin) (sched : schedule) :
  Sync (Cfg p) = true -> validate p = None ->
  sync_phase (IWgAdd (Z.of_nat (List.length (Host (Cfg p)))) :: units w p)
    (Exec w p sched).
Proof.
  intros Hsync Hvalid. unfold Exec. rewrite Hvalid, (fanout_sync w p Hsync).
  apply sync_phase_run.
  - cbn. apply units_straight.
  - eapply in_loop. apply looping_start.
Qed.

Lemma run_app (s1 s2 : schedule) (st : state) :
  run (s1 ++ s2)%list st = run s2 (run s1 st).
Proof. unfold run. apply fold_left_app. Qed.

Lemma main_only_add (n m : nat) : main_only (n + m) = (main_only n ++ main_only m)%list.
Proof. unfold main_only. apply repeat_app. Qed.

(** Alone, the goroutine of [Exec] gets through operations that do not
    block: at most one send in all, and no receive that never comes. *)
Lemma looping_run (U : list instr) :
  forall rest done st,
    looping U done rest st ->
    forallb straight rest = true ->
    existsb is_block rest = false ->
    (List.length (sends_of (done ++ rest)) <= 1)%nat ->
    looping U (done ++ rest) [] (run (main_only (List.length rest)) st).
Proof.
  induction rest as [|i rest IH]; intros done st Hloop Hstraight Hblock Hone.
  - cbn. now rewrite app_nil_r.
  - cbn [List.length main_only repeat run fold_left].
    cbn in Hstraight, Hblock.
    apply andb_true_iff in Hstraight as [Hi Hstraight].
    apply orb_false_elim in Hblock as [Hib Hblock].
    replace (done ++ i :: rest)%list with ((done ++ [i]) ++ rest)%list in *
      by (now rewrite <- app_assoc).
    apply IH; try assumption.
    apply looping_step; try assumption.
    destruct i; cbn; try exact I; try discriminate.
    destruct Hloop as (_ & _ & _ & _ & _ & Hchan & _).
    rewrite Hchan. rewrite !sends_of_app in Hone. cbn in Hone.
    rewrite !length_app in Hone. cbn in Hone.
    destruct (sends_of done); [reflexivity|cbn in Hone; lia].
Qed.

(** After the loop, with an error in [errChannel], two more moves of the
    goroutine of [Exec] return that error. *)
Lemma looping_end_returns (U : list instr) (st : state) (e : error) :
  looping U U [] st -> head (sends_of U) = Some e ->
  returned (run (main_only 2) st) = Some (Some e).
Proof.
  intros (_ & Hthreads & Hret & _ & _ & Hchan & _) Hhead.
  cbn [main_only repeat run fold_left].
  unfold move at 2, step. cbn [fst snd]. rewrite Hret, Hthreads. cbn.
  unfold move, step. cbn. rewrite Hret, Hchan, Hhead.
  destruct (finished st); reflexivity.
Qed.

Lemma streams_of_units (w : world) (p : Plugin) :
  streams_of (units w p) = flat_map (fun host => streams_of (exec w p host)) (Host (Cfg p)).
Proof.
  unfold units. induction (Host (Cfg p)) as [|host hosts IH]; [reflexivity|].
  cbn [flat_map]. now rewrite streams_of_app, IH.
Qed.

(** A run in sync mode that has returned has made every operation of
    every unit, in the order of the host list. *)
Lemma Exec_sync_returned (w : world) (p : Plugin) (sched : schedule) (r : option error) :
  Sync (Cfg p) = true -> validate p = None ->
  returned (Exec w p sched) = Some r ->
  streams (Exec w p sched) = streams_of (units w p) /\
  (forall e, r = Some e ->
     head (sends_of (units w p)) = Some e /\
     output (Exec w p sched) = writes_of (units w p)) /\
  (r = None ->
     output (Exec w p sched) = (writes_of (units w p) ++ writes_of from_select)%list) /\
  (List.length (sends_of (units w p)) <= 1)%nat /\
  existsb is_block (units w p) = false.
Proof.
  intros Hsync Hvalid Hret.
  destruct (Exec_sync_phase w p sched Hsync Hvalid)
    as [st done rest (_ & _ & Hnone & _)|st j k _ Hnone|st r' Hr Hstreams Herr Hok Hone Hblock].
  - congruence.
  - congruence.
  - assert (r' = r) by congruence. subst r'. cbn in *. auto.
Qed.

(** In the loop the goroutine of [Exec] makes its next operation or
    stays where it is. *)
Lemma looping_moves_or_stays (U done rest : list instr) (i : instr) (st : state)
    (pick : bool) :
  looping U done (i :: rest) st ->
  can_move i st \/ move st (0%nat, pick) = st.
Proof.
  intros (_ & Hthreads & Hret & _).
  destruct i; cbn [can_move]; try (left; exact I).
  - destruct (errChannel st) eqn:Hfull; [right|left; reflexivity].
    unfold move, step. cbn [fst snd]. rewrite Hret, Hthreads. cbn.
    now rewrite Hfull.
  - right. unfold move, step. cbn [fst snd]. now rewrite Hret, Hthreads.
Qed.

(** When an error has been reported and the [select] takes the error
    case when it can, [Exec] does not get past its [select] without
    returning that error. *)
Lemma pending_move (U : list instr) (e : error) (st : state) (tid : nat) :
  forallb straight U = true ->
  head (sends_of U) = Some e ->
  sync_phase U st -> pending e st -> pending e (move st (tid, false)).
Proof.
  intros Hstraight Hhead Hphase Hpending.
  destruct Hphase as [st done rest Hloop|st j k Hthreads Hret _ _ Hchan _ _|st r Hret _ _ _ _ _].
  - (* in the loop *)
    pose proof Hloop as (HU & Hthreads & Hret & _).
    destruct tid as [|tid].
    + destruct rest as [|i rest].
      * unfold move, step. cbn [fst snd]. rewrite Hret, Hthreads. cbn.
        right. split; [exact Hret|]. exists from_select. split; [reflexivity|].
        left. reflexivity.
      * assert (Hi : straight i = true).
        { rewrite HU, forallb_app in Hstraight. cbn in Hstraight.
          apply andb_true_iff in Hstraight as [_ H].
          now apply andb_true_iff in H as [H _]. }
        destruct (looping_moves_or_stays U done rest i st false Hloop) as [Hcan| ->];
          [|exact Hpending].
        destruct (looping_step U done rest i st false Hloop Hi Hcan)
          as (_ & Hthreads' & Hret' & _).
        right. split; [exact Hret'|]. rewrite Hthreads'.
        eexists. split; [reflexivity|].
        apply in_or_app. right. right. left. reflexivity.
    + unfold move, step. cbn [fst snd]. rewrite Hret, Hthreads.
      destruct tid; exact Hpending.
  - (* past the loop *)
    destruct Hpending as [Hdone|(_ & prog & Hprog & Hin)]; [congruence|].
    rewrite Hthreads in Hprog. cbn in Hprog. injection Hprog as <-.
    assert (Hj : j = 0%nat).
    { destruct j as [|[|[|[|[|j]]]]]; [reflexivity|exfalso..];
        cbn in Hin; try (destruct j; cbn in Hin); intuition discriminate. }
    subst j. rewrite Hhead in Hchan.
    unfold move, step. cbn [fst snd]. rewrite Hret, Hthreads.
    destruct tid as [|[|tid]]; cbn [lookup list_lookup].
    + cbn. rewrite Hchan. destruct (finished st); left; reflexivity.
    + destruct k as [|[|k]]; cbn [drop closer].
      * destruct (wg st =? 0); cbn;
          (right; split; [exact Hret|]; rewrite ?Hthreads;
           exists from_select; split; [reflexivity|left; reflexivity]).
      * cbn. right. split; [exact Hret|].
        exists from_select; split; [reflexivity|left; reflexivity].
      * destruct k; cbn;
          (right; split; [exact Hret|]; rewrite Hthreads;
           exists from_select; split; [reflexivity|left; reflexivity]).
    + destruct tid; cbn;
        (right; split; [exact Hret|]; rewrite Hthreads;
         exists from_select; split; [reflexivity|left; reflexivity]).
  - now rewrite (move_returned _ _ _ Hret).
Qed.

Lemma pending_run (U : list instr) (e : error) (sched : schedule) :
  forallb straight U = true ->
  head (sends_of U) = Some e ->
  error_first sched = true ->
  forall st, sync_phase U st -> pending e st -> pending e (run sched st).
Proof.
  intros Hstraight Hhead. unfold run, error_first.
  induction sched as [|[tid pick] sched IH]; intros Hfirst st Hphase Hpending;
    [exact Hpending|].
  cbn in Hfirst. apply andb_true_iff in Hfirst as [Hpick Hfirst].
  apply negb_true_iff in Hpick. cbn in Hpick. subst pick.
  cbn [fold_left]. apply IH; [exact Hfirst| |].
  - now apply sync_phase_move.
  - now apply (pending_move U).
Qed.

(** C2, as the code has it.  With the sync flag and two hosts or more,
    the units run one after another in the order of the host list, and
    a unit that fails does not end the loop: whenever [Exec] returns,
    [ssh.Stream] has been called for every host of the list, host after
    host, and an error it returns is the first one a unit reported.
    When one unit reports one error and no unit blocks, every run in
    which the [select] takes the error case whenever that case is ready
    returns that error if it returns, and [Exec] does return it when
    the goroutine that called it goes through every unit and reaches
    the [select] before [finished] is closed. *)
Theorem sync_runs_every_host (w : world) (p : Plugin) :
  Sync (Cfg p) = true -> (2 <= List.length (Host (Cfg p)))%nat -> validate p = None ->
  (forall sched r,
     returned (Exec w p sched) = Some r ->
     streams (Exec w p sched)
     = flat_map (fun host => streams_of (exec w p host)) (Host (Cfg p)) /\
     forall e, r = Some e -> head (sends_of (units w p)) = Some e) /\
  (forall e,
     sends_of (units w p) = [e] -> existsb is_block (units w p) = false ->
     (forall sched r,
        error_first sched = true ->
        returned (Exec w p sched) = Some r -> r = Some e) /\
     error_first (main_only (List.length (units w p) + 3)) = true /\
     returned (Exec w p (main_only (List.length (units w p) + 3))) = Some (Some e)).
Proof.
  intros Hsync _ Hvalid. split.
  - intros sched r Hret.
    destruct (Exec_sync_returned w p sched r Hsync Hvalid Hret) as (Hstreams & Herr & _).
    rewrite Hstreams, streams_of_units. split; [reflexivity|].
    intros e He. now apply Herr.
  - intros e Hsends Hblock.
    set (U := IWgAdd (Z.of_nat (List.length (Host (Cfg p)))) :: units w p).
    assert (Hstraight : forallb straight U = true) by (subst U; cbn; apply units_straight).
    assert (Hhead : head (sends_of U) = Some e) by (subst U; cbn; now rewrite Hsends).
    split; [|split].
    + intros sched r Hfirst Hret.
      unfold Exec in Hret. rewrite Hvalid, (fanout_sync w p Hsync) in Hret. fold U in Hret.
      assert (Hstart : pending e (start (U ++ IGo closer :: from_select))).
      { right. split; [reflexivity|]. eexists. split; [reflexivity|].
        apply in_or_app. right. right. left. reflexivity. }
      apply (pending_run U e sched Hstraight Hhead Hfirst) in Hstart.
      * destruct Hstart as [Hdone|(Hnone & _)]; congruence.
      * eapply in_loop. apply looping_start.
    + unfold error_first, main_only. clear.
      induction (List.length (units w p) + 3)%nat; cbn; auto.
    + unfold Exec. rewrite Hvalid, (fanout_sync w p Hsync). fold U.
      replace (List.length (units w p) + 3)%nat with (List.length U + 2)%nat
        by (subst U; cbn [List.length]; lia).
      rewrite main_only_add, run_app.
      apply (looping_end_returns U); [|exact Hhead].
      apply (looping_run U U [] _ (looping_start U)).
      * exact Hstraight.
      * subst U. cbn. exact Hblock.
      * subst U. cbn. rewrite Hsends. cbn. lia.
Qed.

Lemma sync_runs_every_host_witness :
  returned (Exec a_denied two_hosts (main_only (List.length (units a_denied two_hosts) + 3)))
  = Some (Some denied).
Proof.
  apply (proj2 (sync_runs_every_host a_denied two_hosts eq_refl (le_n 2) eq_refl)
           denied eq_refl eq_refl).
Defined.

(** Host a refuses the password and host b is fine: under every
    schedule, when [Exec] has returned, [ssh.Stream] has been called for
    b after a; and [Exec] does return the error of a, after the command
    has run on b. *)
Lemma sync_failure_does_not_end_the_loop :
  (forall sched r,
     returned (Exec a_denied two_hosts sched) = Some r ->
     streams (Exec a_denied two_hosts sched) = ["a"; "b"]) /\
  returned (Exec a_denied two_hosts (main_only 15)) = Some (Some denied) /\
  streams (Exec a_denied two_hosts (main_only 15)) = ["a"; "b"] /\
  In (Stdout, "b: out: root" ++ newline) (output (Exec a_denied two_hosts (main_only 15))).
Proof.
  split.
  - intros sched r Hret.
    destruct (Exec_sync_returned a_denied two_hosts sched r eq_refl eq_refl Hret)
      as (Hstreams & _).
    rewrite Hstreams. reflexivity.
  - vm_compute. intuition.
Qed.

(** In sync mode nothing receives from [errChannel] before the loop is
    over, and its buffer holds one value: when the units report two
    errors or more, the second send never comes through and [Exec]
    never returns. *)
Lemma sync_two_reports_never_return (w : world) (p : Plugin) (sched : schedule) :
  Sync (Cfg p) = true -> validate p = None ->
  (2 <= List.length (sends_of (units w p)))%nat ->
  returned (Exec w p sched) = None.
Proof.
  intros Hsync Hvalid Htwo.
  destruct (returned (Exec w p sched)) as [r|] eqn:Hret; [|reflexivity].
  destruct (Exec_sync_returned w p sched r Hsync Hvalid Hret) as (_ & _ & _ & Hone & _).
  lia.
Qed.

Lemma step_beyond (tid : nat) (pick : bool) (st : state) :
  (List.length (threads st) <= tid)%nat -> step tid pick st = None.
Proof.
  intros H. unfold step.
  destruct (returned st); [reflexivity|].
  now rewrite (lookup_ge_None_2 _ _ H).
Qed.

(** C3.  Sync mode, hosts a and b, both refuse the password.  The unit
    of a reports its error; the unit of b then blocks on its own report
    and [Exec] never returns, under any schedule: the run ends in a
    state where the error of a is still in [errChannel], no goroutine
    can move, no error has been returned and no banner printed. *)
Theorem sync_two_failures_block :
  sends_of (exec all_denied two_hosts "a") = [denied] /\
  sends_of (exec all_denied two_hosts "b") = [denied] /\
  (forall sched, returned (Exec all_denied two_hosts sched) = None) /\
  deadlocked (Exec all_denied two_hosts (main_only 11)) /\
  errChannel (Exec all_denied two_hosts (main_only 11)) = Some denied /\
  streams (Exec all_denied two_hosts (main_only 11)) = ["a"; "b"].
Proof.
  split; [reflexivity|]. split; [reflexivity|]. split; [|split; [|split]].
  - intros sched.
    apply sync_two_reports_never_return; [reflexivity..|].
    vm_compute. lia.
  - split; [reflexivity|].
    intros tid pick. destruct tid as [|tid].
    + vm_compute. reflexivity.
    + apply step_beyond. vm_compute. lia.
  - reflexivity.
  - reflexivity.
Qed.

(** * Further properties *)

(** ** [retryStream]: bounds *)

Lemma retry_loop_unfold (fuel : nat) (deadline : Z) (stream : nat -> conn_attempt)
    (k : nat) (now wait : Z) :
  retry_loop (S fuel) deadline stream k now wait =
  let a := stream k in
  let t := now + Z.of_N (elapsed a) in
  let it := {| it_wait := wait; it_done := t; it_answer := answer a |} in
  match answer a with
  | StreamOk _ => Some (one_turn it 0)
  | StreamErr err =>
      if negb (isOpError err) then Some (one_turn it 0)
      else
        if (Z.max t deadline <? Z.max t (t + wait))
           || ((Z.max t deadline =? Z.max t (t + wait)) && deadline_first a)
        then Some (one_turn it (Z.max t deadline - t))
        else
          match retry_loop fuel deadline stream (S k) (Z.max t (t + wait)) (wrap64 (wait * 2)) with
          | Some r => Some (and_then it (Z.max t (t + wait) - t) r)
          | None => None
          end
  end.
Proof. reflexivity. Qed.

Lemma retryStream_unfold (w : world) (ssh : MakeConfig) (p : Plugin) :
  retryStream w ssh p =
  retry_loop (S 63) (RetryTimeout (Cfg p))
    (Stream w ssh (Join (Script (Cfg p)) newline) (CommandTimeout (Cfg p)))
    0%nat 0 second.
Proof. reflexivity. Qed.

Lemma on_track_calls (k : nat) (now wait : Z) : on_track k now wait -> (k <= 33)%nat.
Proof.
  intros (Hw & _ & Hrange).
  assert (Hb : 2 ^ Z.of_nat k * second < 2 ^ 63 + second) by (unfold second in *; lia).
  now apply doubled_second_bound in Hb.
Qed.

(** Calls made before plus calls made from here on: at most 34. *)
Lemma retry_loop_calls (deadline : Z) (stream : nat -> conn_attempt) :
  deadline < 2 ^ 63 ->
  forall fuel k now wait r,
    on_track k now wait ->
    retry_loop fuel deadline stream k now wait = Some r ->
    (k + List.length (rr_iters r) <= 34)%nat.
Proof.
  intros Hdl fuel.
  induction fuel as [|fuel IH]; intros k now wait r Htrack Hrun; [discriminate|].
  rewrite retry_loop_unfold in Hrun. cbn zeta in Hrun.
  pose proof (on_track_calls _ _ _ Htrack) as Hk.
  destruct (answer (stream k)) as [evs|err]; [injection Hrun as <-; cbn; lia|].
  destruct (negb (isOpError err)); [injection Hrun as <-; cbn; lia|].
  match type of Hrun with context [if ?c then _ else _] => destruct c eqn:Hsel end;
    [injection Hrun as <-; cbn; lia|].
  destruct (retry_loop fuel deadline stream (S k) _ _) as [r'|] eqn:Hrec; [|discriminate].
  injection Hrun as <-.
  apply on_track_next with (k := k) (now := now) in Hsel as (_ & _ & Hnext);
    [|assumption..|lia].
  specialize (IH _ _ _ _ Hnext Hrec). cbn. lia.
Qed.

(** The time slept is not negative and never goes past the deadline. *)
Lemma retry_loop_slept (deadline : Z) (stream : nat -> conn_attempt) :
  deadline < 2 ^ 63 ->
  forall fuel k now wait r,
    on_track k now wait ->
    retry_loop fuel deadline stream k now wait = Some r ->
    0 <= rr_slept r <= Z.max 0 (deadline - now).
Proof.
  intros Hdl fuel.
  induction fuel as [|fuel IH]; intros k now wait r Htrack Hrun; [discriminate|].
  rewrite retry_loop_unfold in Hrun. cbn zeta in Hrun.
  destruct (answer (stream k)) as [evs|err]; [injection Hrun as <-; cbn; lia|].
  destruct (negb (isOpError err)); [injection Hrun as <-; cbn; lia|].
  match type of Hrun with context [if ?c then _ else _] => destruct c eqn:Hsel end;
    [injection Hrun as <-; cbn; lia|].
  destruct (retry_loop fuel deadline stream (S k) _ _) as [r'|] eqn:Hrec; [|discriminate].
  injection Hrun as <-.
  apply on_track_next with (k := k) (now := now) in Hsel as (Hmax & Hfull & Hnext);
    [|assumption..|lia].
  specialize (IH _ _ _ _ Hnext Hrec). cbn. lia.
Qed.

(** Whatever the hosts do, [retryStream] returns after at most 34 calls
    of [ssh.Stream]: the deadline is a [time.Duration], and 33 doubled
    backoffs do not fit before the largest one. *)
Theorem retryStream_call_bound (w : world) (ssh : MakeConfig) (p : Plugin) :
  int64 (RetryTimeout (Cfg p)) ->
  exists r,
    retryStream w ssh p = Some r /\
    (1 <= List.length (rr_iters r) <= 34)%nat.
Proof.
  intros Hrange.
  destruct (retryStream_spec w ssh p Hrange) as (r & Hr & n & _ & Hlen & _).
  exists r. split; [exact Hr|].
  rewrite retryStream_unfold in Hr.
  pose proof (retry_loop_calls _ _ (proj2 Hrange) _ _ _ _ _ on_track_start Hr) as Hcalls.
  clear Hr. lia.
Qed.

(** The time [retryStream] spends sleeping is at most the retry
    timeout, and none at all when the timeout is zero or negative. *)
Theorem retryStream_sleeps_within_deadline (w : world) (ssh : MakeConfig) (p : Plugin) :
  int64 (RetryTimeout (Cfg p)) ->
  exists r,
    retryStream w ssh p = Some r /\
    0 <= rr_slept r <= Z.max 0 (RetryTimeout (Cfg p)).
Proof.
  intros Hrange.
  destruct (retryStream_spec w ssh p Hrange) as (r & Hr & _).
  exists r. split; [exact Hr|].
  rewrite retryStream_unfold in Hr.
  pose proof (retry_loop_slept _ _ (proj2 Hrange) _ _ _ _ _ on_track_start Hr) as Hslept.
  clear Hr. now rewrite Z.sub_0_r in Hslept.
Qed.

(** What [retryStream] returns is what its last call of [ssh.Stream]
    returned, and every call before the last failed with a network
    error: channels are those of the first call that succeeded, and an
    error that is not a network error is never retried over. *)
Theorem retryStream_returns_last_answer (w : world) (ssh : MakeConfig) (p : Plugin) :
  int64 (RetryTimeout (Cfg p)) ->
  exists r n,
    retryStream w ssh p = Some r /\
    List.length (rr_iters r) = S n /\
    rr_answer r
    = answer (Stream w ssh (Join (Script (Cfg p)) newline) (CommandTimeout (Cfg p)) n) /\
    forall i, (i < n)%nat ->
      transient (answer (Stream w ssh (Join (Script (Cfg p)) newline)
                           (CommandTimeout (Cfg p)) i)).
Proof.
  intros Hrange.
  destruct (retryStream_spec w ssh p Hrange)
    as (r & Hr & n & last & Hlen & Hlast & Hres & Hall & Hbefore & _).
  exists r, n. split; [exact Hr|]. split; [exact Hlen|]. clear Hr. split.
  - rewrite Hres. destruct (Hall n last Hlast) as (_ & Ha & _). exact Ha.
  - intros i Hi.
    destruct (lookup_lt_is_Some_2 (rr_iters r) i ltac:(lia)) as [it Hit].
    destruct (Hbefore i it Hit Hi) as [Htr _].
    destruct (Hall i it Hit) as (_ & Ha & _). cbn [Nat.add] in Ha.
    now rewrite <- Ha.
Qed.

(** With a retry timeout of zero or less there is no retry: one call of
    [ssh.Stream], whose answer is returned at once. *)
Theorem no_retry_without_timeout (w : world) (ssh : MakeConfig) (p : Plugin) :
  RetryTimeout (Cfg p) <= 0 ->
  exists it,
    retryStream w ssh p
    = Some {| rr_answer := answer (Stream w ssh (Join (Script (Cfg p)) newline)
                                     (CommandTimeout (Cfg p)) 0%nat);
              rr_iters := [it];
              rr_slept := 0 |}.
Proof.
  intros Hzero. rewrite retryStream_unfold, retry_loop_unfold. cbn zeta.
  set (a := Stream w ssh _ _ 0%nat).
  set (t := 0 + Z.of_N (elapsed a)).
  assert (Ht : 0 <= t) by (subst t; lia).
  destruct (answer a) as [evs|err] eqn:Hans; [eexists; reflexivity|].
  destruct (negb (isOpError err)); [eexists; reflexivity|].
  assert (Hfirst : (Z.max t (RetryTimeout (Cfg p)) <? Z.max t (t + second)) = true)
    by (apply Z.ltb_lt; unfold second; lia).
  rewrite Hfirst. cbn [orb].
  replace (Z.max t (RetryTimeout (Cfg p)) - t) with 0 by lia.
  eexists. unfold one_turn. cbn. reflexivity.
Qed.

(** ** The forwarded environment *)

(** The loop over [p.Config.Envs] forwards exactly the listed variables
    that are set, under their upper-case names and with their values
    escaped, in the order of the list; a variable that is not set is
    skipped without a word. *)
Theorem forward_env_bindings (w : world) (envs : list string) :
  forward_env w envs
  = map (fun kv => fst kv ++ "=" ++ escapeArg (snd kv)) (bindings w envs) /\
  (forall key val,
     In (key, val) (bindings w envs) <->
     exists name, In name envs /\ key = ToUpper w name /\ LookupEnv w key = Some val) /\
  (List.length (forward_env w envs) <= List.length envs)%nat.
Proof.
  split; [|split].
  - induction envs as [|name envs IH]; [reflexivity|].
    cbn. destruct (LookupEnv w (ToUpper w name)); cbn; now rewrite IH.
  - intros key val. induction envs as [|name envs IH].
    + cbn. split; [contradiction|]. intros (name & [] & _).
    + cbn [bindings]. destruct (LookupEnv w (ToUpper w name)) as [v|] eqn:Hset.
      * cbn [In]. rewrite IH. split.
        -- intros [[= <- <-]|(n & Hin & Hk & Hv)].
           ++ exists name. cbn. auto.
           ++ exists n. cbn. auto.
        -- intros (n & [->|Hin] & -> & Hv).
           ++ left. f_equal. congruence.
           ++ right. exists n. auto.
      * rewrite IH. split.
        -- intros (n & Hin & Hk & Hv). exists n. cbn. auto.
        -- intros (n & [->|Hin] & -> & Hv); [congruence|].
           exists n. auto.
  - induction envs as [|name envs IH]; [reflexivity|].
    cbn. destruct (LookupEnv w (ToUpper w name)); cbn; lia.
Qed.

Lemma sh_parse_escapeArg (arg : string) : sh_parse (escapeArg arg) = Some [arg].
Proof.
  unfold escapeArg. rewrite ReplaceAll_escape_quotes.
  unfold sh_parse, quote.
  cbn [append sh_words is_quote Ascii.eqb Bool.eqb open_word].
  rewrite sh_words_escape_quotes. reflexivity.
Qed.

(** Two values with the same escaped form are the same value. *)
Theorem escapeArg_injective (a b : string) : escapeArg a = escapeArg b -> a = b.
Proof.
  intros H.
  pose proof (sh_parse_escapeArg a) as Ha.
  rewrite H, sh_parse_escapeArg in Ha. congruence.
Qed.

Lemma escapeArg_injective_witness : "a b" = "a b".
Proof. apply (escapeArg_injective "a b" "a b"). reflexivity. Defined.

(** Plain bytes join the word that is being read. *)
Lemma sh_words_plain (s : string) :
  plain s = true ->
  forall (w rest : string),
    sh_words Unquoted (Some w) (s ++ rest) = sh_words Unquoted (Some (w ++ s)) rest.
Proof.
  induction s as [|c s IH]; intros Hplain w rest.
  - cbn. now rewrite append_empty_r.
  - cbn in Hplain. apply andb_true_iff in Hplain as [Hc Hs].
    unfold plain_byte in Hc. apply negb_true_iff in Hc.
    apply orb_false_elim in Hc as [Hc Hu].
    apply orb_false_elim in Hc as [Hc Hb].
    apply orb_false_elim in Hc as [Hq Hbs].
    cbn [append sh_words]. rewrite Hq, Hbs, Hb, Hu. cbn [push].
    rewrite IH by assumption. now rewrite append_assoc.
Qed.

(** An assignment with a plain name is read as one word, name, equals
    sign and value, whatever the value is. *)
Lemma sh_words_assignment (key val rest : string) :
  plain key = true ->
  sh_words Unquoted None (key ++ "=" ++ escapeArg val ++ rest)
  = sh_words Unquoted (Some (key ++ "=" ++ val)) rest.
Proof.
  intros Hplain.
  assert (Hstart : sh_words Unquoted None (key ++ "=" ++ escapeArg val ++ rest)
                   = sh_words Unquoted (Some (key ++ "=")) (escapeArg val ++ rest)).
  { destruct key as [|c key].
    - reflexivity.
    - cbn in Hplain. apply andb_true_iff in Hplain as [Hc Hs].
      unfold plain_byte in Hc. apply negb_true_iff in Hc.
      apply orb_false_elim in Hc as [Hc Hu].
      apply orb_false_elim in Hc as [Hc Hb].
      apply orb_false_elim in Hc as [Hq Hbs].
      cbn [append sh_words]. rewrite Hq, Hbs, Hb, Hu. cbn [push].
      rewrite (sh_words_plain key Hs).
      change ("=" ++ escapeArg val ++ rest) with (String "="%char (escapeArg val ++ rest)).
      cbn [sh_words]. cbn. now rewrite append_assoc. }
  rewrite Hstart. unfold escapeArg. rewrite ReplaceAll_escape_quotes.
  unfold quote. rewrite !append_assoc.
  cbn [append sh_words is_quote Ascii.eqb Bool.eqb open_word].
  rewrite sh_words_escape_quotes.
  cbn [append sh_words is_quote Ascii.eqb Bool.eqb].
  now rewrite append_assoc.
Qed.

Lemma Join_cons (e e' : string) (l : list string) (sep : string) :
  Join (e :: e' :: l) sep = e ++ sep ++ Join (e' :: l) sep.
Proof. reflexivity. Qed.

Lemma sh_parse_assignments (kvs : list (string * string)) :
  forallb (fun kv => plain (fst kv)) kvs = true ->
  sh_parse (Join (map (fun kv => fst kv ++ "=" ++ escapeArg (snd kv)) kvs) newline)
  = Some (map (fun kv => fst kv ++ "=" ++ snd kv) kvs).
Proof.
  unfold sh_parse.
  induction kvs as [|[key val] kvs IH]; intros Hplain; [reflexivity|].
  cbn [forallb fst] in Hplain. apply andb_true_iff in Hplain as [Hkey Hrest].
  specialize (IH Hrest).
  destruct kvs as [|kv kvs].
  - cbn [map Join fst snd].
    rewrite <- (append_empty_r (key ++ "=" ++ escapeArg val)), !append_assoc.
    now rewrite sh_words_assignment.
  - cbn [map] in IH |- *. rewrite Join_cons. cbn [fst snd].
    rewrite !append_assoc.
    rewrite sh_words_assignment by assumption.
    unfold newline at 1. cbn [append sh_words is_quote is_backslash is_blank is_newline
                                Ascii.eqb Bool.eqb orb emit].
    cbn [append] in IH. now rewrite IH.
Qed.

Lemma bindings_plain (w : world) (envs : list string) :
  forallb (fun name => plain (ToUpper w name)) envs = true ->
  forallb (fun kv => plain (fst kv)) (bindings w envs) = true.
Proof.
  induction envs as [|name envs IH]; [reflexivity|].
  cbn. intros H. apply andb_true_iff in H as [Hname Hrest].
  destruct (LookupEnv w (ToUpper w name)); cbn; rewrite ?Hname; auto.
Qed.

(** When the upper-case names of the listed variables are plain words,
    a POSIX shell reads the lines that [Plugin.exec] puts before the
    script as one word for each variable that is set: name, equals sign
    and the value as it is in the environment. *)
Theorem forwarded_env_round_trip (w : world) (envs : list string) :
  forallb (fun name => plain (ToUpper w name)) envs = true ->
  sh_parse (Join (forward_env w envs) newline)
  = Some (map (fun kv => fst kv ++ "=" ++ snd kv) (bindings w envs)).
Proof.
  intros Hplain.
  assert (Hfwd : forward_env w envs
                 = map (fun kv => fst kv ++ "=" ++ escapeArg (snd kv)) (bindings w envs)).
  { clear Hplain. induction envs as [|name envs IH]; [reflexivity|].
    cbn. destruct (LookupEnv w (ToUpper w name)); cbn; now rewrite IH. }
  rewrite Hfwd. apply sh_parse_assignments. now apply bindings_plain.
Qed.

Lemma forwarded_env_round_trip_witness :
  sh_parse (Join (forward_env two_variables ["name"; "unset"; "rank"]) newline)
  = Some ["NAME=Miles O'Brien"; "RANK=chief"].
Proof.
  apply (forwarded_env_round_trip two_variables ["name"; "unset"; "rank"]).
  reflexivity.
Defined.

(** ** The checks of [Plugin.Exec], read as a condition *)

Lemma len_zero (s : string) : (len s =? 0)%nat = true <-> s = "".
Proof. destruct s; cbn; split; congruence. Qed.

Lemma length_zero {A : Type} (l : list A) : (List.length l =? 0)%nat = true <-> l = [].
Proof. destruct l; cbn; split; congruence. Qed.

(** [Exec] goes on to the hosts exactly when a host or a user name is
    given, a key, a password or a key path is given, and key and
    password are not both given.  A key path next to a password or to a
    key passes. *)
Theorem validate_accepts (p : Plugin) :
  validate p = None <->
  (Host (Cfg p) <> [] \/ UserName (Cfg p) <> "") /\
  (Key (Cfg p) <> "" \/ Password (Cfg p) <> "" \/ KeyPath (Cfg p) <> "") /\
  (Key (Cfg p) = "" \/ Password (Cfg p) = "").
Proof.
  unfold validate, noHostAndUser, noPasswordOrKey, passwordAndKey.
  pose proof (length_zero (Host (Cfg p))) as Hh.
  pose proof (len_zero (UserName (Cfg p))) as Hu.
  pose proof (len_zero (Key (Cfg p))) as Hk.
  pose proof (len_zero (Password (Cfg p))) as Hp.
  pose proof (len_zero (KeyPath (Cfg p))) as Hkp.
  destruct (List.length (Host (Cfg p)) =? 0)%nat, (len (UserName (Cfg p)) =? 0)%nat,
    (len (Key (Cfg p)) =? 0)%nat, (len (Password (Cfg p)) =? 0)%nat,
    (len (KeyPath (Cfg p)) =? 0)%nat; cbn;
    (split; [try discriminate; intros _|try reflexivity; intros (H1 & H2 & H3)]);
    intuition congruence.
Qed.

(** ** The calls of one unit *)

Lemma streams_of_writes (l : list (writer * string)) : streams_of (map IWrite l) = [].
Proof. induction l; cbn; auto. Qed.

Lemma streams_of_sends (l : list error) : streams_of (map ISend l) = [].
Proof. induction l; cbn; auto. Qed.

Lemma streams_of_repeat (host : string) (n : nat) :
  streams_of (repeat (IStream host) n) = repeat host n.
Proof. induction n; cbn; congruence. Qed.

(** The calls of [ssh.Stream] that a unit makes are those of its call
    of [retryStream]. *)
Lemma streams_of_exec (w : world) (p : Plugin) (host : string) :
  streams_of (exec w p host)
  = match retryStream w (ssh_config p host)
            (with_script p (forward_env w (Envs (Cfg p)) ++ Script (Cfg p))%list) with
    | Some r => repeat host (List.length (rr_iters r))
    | None => []
    end.
Proof.
  unfold exec.
  generalize (retryStream w (ssh_config p host)
                (with_script p (forward_env w (Envs (Cfg p)) ++ Script (Cfg p))%list)).
  intros o. rewrite !streams_of_app.
  replace (streams_of (if Debug (Cfg p) then _ else _)) with (@nil string)
    by (destruct (Debug (Cfg p)); reflexivity).
  cbn [streams_of app]. rewrite app_nil_r.
  destruct o as [r|]; [|reflexivity].
  rewrite streams_of_app, streams_of_repeat.
  destruct (rr_answer r) as [evs|err]; [|cbn; now rewrite app_nil_r].
  rewrite streams_of_app, streams_of_writes.
  destruct (mx_exit _) as [[err b]|]; cbn; rewrite ?streams_of_sends; now rewrite app_nil_r.
Qed.

(** A unit calls [ssh.Stream] for its own host only, at least once and
    at most 34 times. *)
Theorem exec_calls_own_host (w : world) (p : Plugin) (host : string) :
  int64 (RetryTimeout (Cfg p)) ->
  exists n, (1 <= n <= 34)%nat /\ streams_of (exec w p host) = repeat host n.
Proof.
  intros Hrange. rewrite streams_of_exec.
  set (p' := with_script p _).
  assert (Hrange' : int64 (RetryTimeout (Cfg p'))) by exact Hrange.
  destruct (retryStream_spec w (ssh_config p host) p' Hrange') as (r & Hr & n & _ & Hlen & _).
  pose proof Hr as Hcalls. rewrite retryStream_unfold in Hcalls.
  apply (retry_loop_calls _ _ (proj2 Hrange') _ _ _ _ _ on_track_start) in Hcalls.
  rewrite Hr. clear Hr. exists (List.length (rr_iters r)). split; [lia|reflexivity].
Qed.

(** ** The output of a run in sync mode *)

Lemma writes_of_units (w : world) (p : Plugin) :
  writes_of (units w p) = flat_map (fun host => writes_of (exec w p host)) (Host (Cfg p)).
Proof.
  unfold units. induction (Host (Cfg p)) as [|host hosts IH]; [reflexivity|].
  cbn [flat_map]. now rewrite writes_of_app, IH.
Qed.

(** In sync mode, when [Exec] has returned, what was written is what
    the units write, host after host in the order of the list, and
    after that the three lines of the banner when [Exec] returned nil
    and nothing more when it returned an error. *)
Theorem sync_output_in_host_order (w : world) (p : Plugin) (sched : schedule)
    (r : option error) :
  Sync (Cfg p) = true -> validate p = None ->
  returned (Exec w p sched) = Some r ->
  output (Exec w p sched)
  = (flat_map (fun host => writes_of (exec w p host)) (Host (Cfg p))
     ++ match r with
        | None => map (fun s => (Stdout, Sprintln [s])) banner
        | Some _ => []
        end)%list.
Proof.
  intros Hsync Hvalid Hret.
  destruct (Exec_sync_returned w p sched r Hsync Hvalid Hret) as (_ & Herr & Hok & _).
  rewrite <- writes_of_units.
  destruct r as [e|].
  - destruct (Herr e eq_refl) as [_ ->]. now rewrite app_nil_r.
  - now rewrite (Hok eq_refl).
Qed.

Lemma sync_output_in_host_order_witness :
  output (Exec a_denied two_hosts (main_only 15))
  = (flat_map (fun host => writes_of (exec a_denied two_hosts host)) ["a"; "b"] ++ [])%list.
Proof.
  apply (sync_output_in_host_order a_denied two_hosts (main_only 15) (Some denied));
    reflexivity.
Defined.

(** ** Errors are never invented *)

Lemma Forall_flat_map_deep (P : error -> Prop) (body : list instr) :
  Forall P (flat_map deep_sends body) ->
  Forall (fun i => Forall P (deep_sends i)) body.
Proof.
  induction body as [|i body IH]; cbn; intros H; [constructor|].
  apply Forall_app in H as [Hi Hbody]. constructor; auto.
Qed.

(** A move keeps every error of the state within [P]. *)
Lemma errors_within_move (P : error -> Prop) (st : state) (c : nat * bool) :
  errors_within P st -> errors_within P (move st c).
Proof.
  intros Hst. pose proof Hst as (Hchan & Hthreads & Hret).
  destruct c as [tid pick]. unfold move, step. cbn [fst snd].
  destruct (returned st) as [r|] eqn:Hr; [exact Hst|].
  destruct (threads st !! tid) as [[|i rest]|] eqn:Htid; try exact Hst.
  assert (Hthread : Forall (fun i => Forall P (deep_sends i)) (i :: rest)).
  { rewrite Forall_lookup in Hthreads. exact (Hthreads _ _ Htid). }
  apply Forall_cons in Hthread as [Hi Hrest].
  assert (Hnext : Forall (Forall (fun i => Forall P (deep_sends i)))
                    (<[tid := rest]> (threads st))).
  { apply Forall_insert; assumption. }
  destruct i; cbn [deep_sends] in Hi.
  - repeat split; cbn; try assumption; intros; congruence.
  - repeat split; cbn; try assumption; intros; congruence.
  - destruct (errChannel st) eqn:Hfull; [exact Hst|].
    repeat split; cbn; try assumption; [|intros; congruence].
    intros e' [= <-]. now apply Forall_cons in Hi as [Hi _].
  - repeat split; cbn; try assumption; intros; congruence.
  - repeat split; cbn; try assumption; intros; congruence.
  - destruct (wg st =? 0); [|exact Hst].
    repeat split; cbn; try assumption; intros; congruence.
  - repeat split; cbn; try assumption; intros; congruence.
  - repeat split; cbn; try assumption; [|intros; congruence].
    apply Forall_app. split; [assumption|].
    constructor; [|constructor]. now apply Forall_flat_map_deep.
  - destruct (errChannel st) as [e|] eqn:Hfull; destruct (finished st);
      try destruct pick; try exact Hst;
      repeat split; cbn; try assumption; try discriminate;
      try (intros e' [= <-]; now apply Hchan); try (intros; congruence);
      intros e0 H0; rewrite Hfull in H0; now apply Hchan.
  - repeat split; cbn; try assumption. intros e [= ->].
    now apply Forall_cons in Hi as [Hi _].
  - exact Hst.
Qed.

Lemma errors_within_run (P : error -> Prop) (sched : schedule) :
  forall st, errors_within P st -> errors_within P (run sched st).
Proof.
  unfold run. induction sched as [|c sched IH]; intros st Hst; [exact Hst|].
  cbn. apply IH. now apply errors_within_move.
Qed.

Lemma deep_sends_straight (l : list instr) :
  forallb straight l = true -> flat_map deep_sends l = sends_of l.
Proof.
  induction l as [|i l IH]; [reflexivity|].
  cbn [forallb]. intros H. apply andb_true_iff in H as [Hi Hl].
  destruct i; try discriminate Hi; cbn; now rewrite IH.
Qed.

Lemma fanout_errors_reported (w : world) (p : Plugin) :
  Forall (fun i => Forall (reported w p) (deep_sends i)) (fanout w p).
Proof.
  unfold fanout. rewrite !Forall_app. repeat split.
  - repeat constructor.
  - apply List.Forall_flat_map. apply List.Forall_forall. intros host Hhost.
    assert (Hunit : Forall (reported w p) (sends_of (exec w p host))).
    { apply List.Forall_forall. intros e He. exists host. auto. }
    rewrite <- (deep_sends_straight _ (exec_straight w p host)) in Hunit.
    destruct (Sync (Cfg p)).
    + now apply Forall_flat_map_deep.
    + constructor; [|constructor]. cbn [deep_sends]. exact Hunit.
  - repeat constructor.
  - apply List.Forall_forall. intros i Hi. apply in_map_iff in Hi as (s & <- & _).
    constructor.
  - repeat constructor.
Qed.

(** In every mode and under every schedule, an error that [Exec]
    returns is the error of a failed check or an error that the unit of
    a configured host sent on [errChannel]. *)
Theorem Exec_returns_only_reported_errors (w : world) (p : Plugin) (sched : schedule)
    (e : error) :
  returned (Exec w p sched) = Some (Some e) ->
  validate p = Some e \/ (validate p = None /\ reported w p e).
Proof.
  unfold Exec. destruct (validate p) as [err|] eqn:Hvalid.
  - cbn. intros [= ->]. now left.
  - intros Hret. right. split; [reflexivity|].
    assert (Hstart : errors_within (reported w p) (start (fanout w p))).
    { unfold errors_within, start. cbn [errChannel threads returned].
      split; [discriminate|]. split; [|discriminate].
      constructor; [apply fanout_errors_reported|constructor]. }
    apply (errors_within_run _ sched) in Hstart as (_ & _ & Hreturned).
    now apply Hreturned.
Qed.

Lemma Exec_returns_only_reported_errors_witness :
  validate two_hosts = Some denied \/ (validate two_hosts = None /\ reported a_denied two_hosts denied).
Proof.
  apply (Exec_returns_only_reported_errors a_denied two_hosts (main_only 15) denied).
  reflexivity.
Defined.

(** ** The wait group and the [select] in sync mode *)

Lemma wg_delta_app (l1 l2 : list instr) : wg_delta (l1 ++ l2) = wg_delta l1 + wg_delta l2.
Proof.
  induction l1 as [|i l1 IH]; [reflexivity|].
  destruct i; cbn; rewrite ?IH; lia.
Qed.

Lemma wg_delta_writes (l : list (writer * string)) : wg_delta (map IWrite l) = 0.
Proof. induction l; cbn; auto. Qed.

Lemma wg_delta_sends (l : list error) : wg_delta (map ISend l) = 0.
Proof. induction l; cbn; auto. Qed.

Lemma wg_delta_streams (host : string) (n : nat) : wg_delta (repeat (IStream host) n) = 0.
Proof. induction n; cbn; auto. Qed.

(** A unit calls [wg.Done] once. *)
Lemma wg_delta_exec (w : world) (p : Plugin) (host : string) : wg_delta (exec w p host) = -1.
Proof.
  unfold exec.
  generalize (retryStream w (ssh_config p host)
                (with_script p (forward_env w (Envs (Cfg p)) ++ Script (Cfg p))%list)).
  intros o. rewrite !wg_delta_app.
  replace (wg_delta (if Debug (Cfg p) then _ else _)) with 0
    by (destruct (Debug (Cfg p)); reflexivity).
  cbn [wg_delta].
  destruct o as [r|]; [|reflexivity].
  rewrite wg_delta_app, wg_delta_streams.
  destruct (rr_answer r) as [evs|err]; [|reflexivity].
  rewrite wg_delta_app, wg_delta_writes.
  destruct (mx_exit _) as [[err b]|]; cbn; rewrite ?wg_delta_sends; reflexivity.
Qed.

Lemma wg_delta_units (w : world) (p : Plugin) :
  wg_delta (units w p) = - Z.of_nat (List.length (Host (Cfg p))).
Proof.
  unfold units. induction (Host (Cfg p)) as [|host hosts IH]; [reflexivity|].
  cbn [flat_map List.length]. rewrite wg_delta_app, wg_delta_exec, IH. lia.
Qed.

Lemma looping_step_wg (U done rest : list instr) (i : instr) (st : state) (pick : bool) :
  looping U done (i :: rest) st -> straight i = true -> can_move i st ->
  wg (move st (0%nat, pick)) = wg st + wg_delta [i].
Proof.
  intros (_ & Hthreads & Hret & _) Hi Hcan.
  unfold move, step. cbn [fst snd]. rewrite Hret, Hthreads.
  cbn [lookup list_lookup app].
  destruct i; try discriminate Hi; cbn in Hcan; try contradiction;
    rewrite ?Hcan; cbn; lia.
Qed.

(** The counter after the goroutine of [Exec] went through operations
    that do not block. *)
Lemma looping_run_wg (U : list instr) :
  forall rest done st,
    looping U done rest st ->
    forallb straight rest = true ->
    existsb is_block rest = false ->
    (List.length (sends_of (done ++ rest)) <= 1)%nat ->
    wg (run (main_only (List.length rest)) st) = wg st + wg_delta rest.
Proof.
  induction rest as [|i rest IH]; intros done st Hloop Hstraight Hblock Hone.
  - cbn. lia.
  - cbn [List.length main_only repeat run fold_left].
    cbn in Hstraight, Hblock.
    apply andb_true_iff in Hstraight as [Hi Hstraight].
    apply orb_false_elim in Hblock as [Hib Hblock].
    assert (Hcan : can_move i st).
    { destruct i; cbn; try exact I; try discriminate.
      destruct Hloop as (_ & _ & _ & _ & _ & Hchan & _).
      rewrite Hchan. rewrite !sends_of_app in Hone. cbn in Hone.
      rewrite !length_app in Hone. cbn in Hone.
      destruct (sends_of done); [reflexivity|cbn in Hone; lia]. }
    replace (done ++ i :: rest)%list with ((done ++ [i]) ++ rest)%list in Hone
      by (now rewrite <- app_assoc).
    pose proof (looping_step U done rest i st false Hloop Hi Hcan) as Hnext.
    pose proof (looping_step_wg U done rest i st false Hloop Hi Hcan) as Hwg.
    fold (main_only (List.length rest)).
    change (fold_left move (main_only (List.length rest)) (move st (0%nat, false)))
      with (run (main_only (List.length rest)) (move st (0%nat, false))).
    rewrite (IH _ _ Hnext Hstraight Hblock Hone), Hwg.
    change (i :: rest) with ([i] ++ rest)%list. rewrite wg_delta_app. lia.
Qed.

(** From the end of the loop, with the counter at zero: the closing
    goroutine closes [finished], the [select] takes it although an
    error may be in [errChannel], and [Exec] returns nil. *)
Lemma looping_end_closer_first (U : list instr) (st : state) :
  looping U U [] st -> wg st = 0 ->
  returned (run (main_only 1 ++ [(1%nat, true); (1%nat, true); (0%nat, true)]
                   ++ main_only 4)%list st) = Some None.
Proof.
  intros (_ & Hthreads & Hret & _) Hwg.
  cbn [main_only repeat run fold_left app].
  unfold move at 8, step. cbn [fst snd]. rewrite Hret, Hthreads. cbn.
  unfold move at 7, step. cbn. rewrite Hret, Hwg. cbn.
  unfold move at 6, step. cbn. rewrite Hret. cbn.
  unfold move at 5, step. cbn. rewrite Hret.
  destruct (errChannel st); cbn; rewrite ?Hret;
    (unfold move at 4, step; cbn; rewrite Hret; cbn);
    (unfold move at 3, step; cbn; rewrite Hret; cbn);
    (unfold move at 2, step; cbn; rewrite Hret; cbn);
    (unfold move, step; cbn; rewrite Hret; cbn);
    reflexivity.
Qed.

Lemma Exec_closer_first (w : world) (p : Plugin) :
  Sync (Cfg p) = true -> validate p = None ->
  (List.length (sends_of (units w p)) <= 1)%nat ->
  existsb is_block (units w p) = false ->
  returned (Exec w p (closer_first (List.length (units w p)))) = Some None.
Proof.
  intros Hsync Hvalid Hone Hblock.
  unfold Exec. rewrite Hvalid, (fanout_sync w p Hsync).
  set (U := IWgAdd (Z.of_nat (List.length (Host (Cfg p)))) :: units w p).
  unfold closer_first.
  replace (List.length (units w p) + 2)%nat with (List.length U + 1)%nat
    by (subst U; cbn [List.length]; lia).
  rewrite main_only_add, <- app_assoc, run_app.
  assert (Hstraight : forallb straight U = true) by (subst U; cbn; apply units_straight).
  assert (HblockU : existsb is_block U = false) by (subst U; cbn; exact Hblock).
  assert (HoneU : (List.length (sends_of ([] ++ U)) <= 1)%nat) by (subst U; cbn; exact Hone).
  apply (looping_end_closer_first U).
  - apply (looping_run U U [] _ (looping_start U)); assumption.
  - rewrite (looping_run_wg U U [] _ (looping_start U)) by assumption.
    subst U. cbn [wg_delta start wg]. rewrite wg_delta_units. lia.
Qed.

(** In sync mode, when no unit reports an error and no unit blocks,
    [Exec] never returns an error, and it returns nil once the loop is
    over and the closing goroutine has closed [finished]. *)
Theorem sync_success (w : world) (p : Plugin) :
  Sync (Cfg p) = true -> validate p = None ->
  sends_of (units w p) = [] -> existsb is_block (units w p) = false ->
  (forall sched r, returned (Exec w p sched) = Some r -> r = None) /\
  returned (Exec w p (closer_first (List.length (units w p)))) = Some None.
Proof.
  intros Hsync Hvalid Hsends Hblock. split.
  - intros sched [e|] Hret; [|reflexivity].
    destruct (Exec_sync_returned w p sched _ Hsync Hvalid Hret) as (_ & Herr & _).
    destruct (Herr e eq_refl) as [Hhead _]. rewrite Hsends in Hhead. discriminate.
  - apply Exec_closer_first; try assumption. rewrite Hsends. cbn. lia.
Qed.

(** In sync mode the [select] of [Exec] can miss a reported error.
    When one unit has reported one error and no unit blocks, [Exec]
    returns that error if it reaches the [select] before the closing
    goroutine has closed [finished]; if the closing goroutine is first,
    both cases of the [select] are ready, and when it takes [finished],
    [Exec] prints the banner and returns nil. *)
Theorem sync_select_can_miss_the_error (w : world) (p : Plugin) (e : error) :
  Sync (Cfg p) = true -> validate p = None ->
  sends_of (units w p) = [e] -> existsb is_block (units w p) = false ->
  returned (Exec w p (main_only (List.length (units w p) + 3))) = Some (Some e) /\
  returned (Exec w p (closer_first (List.length (units w p)))) = Some None /\
  output (Exec w p (closer_first (List.length (units w p))))
  = (flat_map (fun host => writes_of (exec w p host)) (Host (Cfg p))
     ++ map (fun s => (Stdout, Sprintln [s])) banner)%list.
Proof.
  intros Hsync Hvalid Hsends Hblock.
  assert (Hnil : returned (Exec w p (closer_first (List.length (units w p)))) = Some None).
  { apply Exec_closer_first; try assumption. rewrite Hsends. cbn. lia. }
  split; [|split; [exact Hnil|]].
  - unfold Exec. rewrite Hvalid, (fanout_sync w p Hsync).
    set (U := IWgAdd (Z.of_nat (List.length (Host (Cfg p)))) :: units w p).
    replace (List.length (units w p) + 3)%nat with (List.length U + 2)%nat
      by (subst U; cbn [List.length]; lia).
    rewrite main_only_add, run_app.
    apply (looping_end_returns U).
    + apply (looping_run U U [] _ (looping_start U)).
      * subst U. cbn. apply units_straight.
      * subst U. cbn. exact Hblock.
      * subst U. cbn. rewrite Hsends. cbn. lia.
    + subst U. cbn. now rewrite Hsends.
  - destruct (Exec_sync_returned w p _ _ Hsync Hvalid Hnil) as (_ & _ & Hout & _).
    rewrite (Hout eq_refl), writes_of_units. reflexivity.
Qed.

Lemma sync_success_witness :
  returned (Exec all_fine two_hosts (closer_first (List.length (units all_fine two_hosts))))
  = Some None.
Proof.
  apply (sync_success all_fine two_hosts); reflexivity.
Defined.

Lemma sync_select_can_miss_the_error_witness :
  returned (Exec a_denied two_hosts (closer_first (List.length (units a_denied two_hosts))))
  = Some None.
Proof.
  apply (sync_select_can_miss_the_error a_denied two_hosts denied); reflexivity.
Defined.

Lemma exec_calls_own_host_witness :
  exists n, (1 <= n <= 34)%nat /\
            streams_of (exec all_unreachable one_host "a") = repeat "a" n.
Proof.
  apply (exec_calls_own_host all_unreachable one_host "a").
  apply sample_deadline_int64.
Defined.

Lemma retryStream_call_bound_witness :
  exists r,
    retryStream all_unreachable (ssh_config one_host "a") one_host = Some r /\
    (1 <= List.length (rr_iters r) <= 34)%nat.
Proof.
  apply (retryStream_call_bound all_unreachable (ssh_config one_host "a") one_host).
  apply sample_deadline_int64.
Defined.

Lemma retryStream_sleeps_within_deadline_witness :
  exists r,
    retryStream all_unreachable (ssh_config one_host "a") one_host = Some r /\
    0 <= rr_slept r <= Z.max 0 (RetryTimeout (Cfg one_host)).
Proof.
  apply (retryStream_sleeps_within_deadline all_unreachable (ssh_config one_host "a") one_host).
  apply sample_deadline_int64.
Defined.

Lemma retryStream_returns_last_answer_witness :
  exists r n,
    retryStream all_unreachable (ssh_config one_host "a") one_host = Some r /\
    List.length (rr_iters r) = S n /\
    rr_answer r
    = answer (Stream all_unreachable (ssh_config one_host "a")
                (Join (Script (Cfg one_host)) newline) (CommandTimeout (Cfg one_host)) n) /\
    forall i, (i < n)%nat ->
      transient (answer (Stream all_unreachable (ssh_config one_host "a")
                           (Join (Script (Cfg one_host)) newline)
                           (CommandTimeout (Cfg one_host)) i)).
Proof.
  apply (retryStream_returns_last_answer all_unreachable (ssh_config one_host "a") one_host).
  apply sample_deadline_int64.
Defined.

Lemma no_retry_without_timeout_witness :
  exists it,
    retryStream all_unreachable (ssh_config one_host "a") (with_retry_timeout one_host 0)
    = Some {| rr_answer := StreamErr refused_by_network; rr_iters := [it]; rr_slept := 0 |}.
Proof.
  apply (no_retry_without_timeout all_unreachable (ssh_config one_host "a")
           (with_retry_timeout one_host 0)).
  cbn. lia.
Defined.

(** ** [Plugin.Exec] without the sync flag *)

Lemma fanout_async (w : world) (p : Plugin) :
  Sync (Cfg p) = false ->
  fanout w p =
  (IWgAdd (Z.of_nat (List.length (Host (Cfg p))))
     :: map (fun host => IGo (exec w p host)) (Host (Cfg p))
     ++ IGo closer :: from_select)%list.
Proof.
  intros Hasync. unfold fanout, from_select. rewrite Hasync.
  reflexivity.
Qed.

Lemma move_go (st : state) (pick : bool) (body rest : list instr)
    (others : list (list instr)) :
  returned st = None -> threads st = (IGo body :: rest) :: others ->
  move st (0%nat, pick) = set_threads ((rest :: others) ++ [body])%list st.
Proof.
  intros Hret Hthreads. unfold move, step. cbn [fst snd].
  rewrite Hret, Hthreads. reflexivity.
Qed.

(** The [go] statements of the loop, one after another: each adds a
    goroutine behind those that exist. *)
Lemma spawn_all (f : string -> list instr) (hosts : list string) :
  forall st rest others,
    returned st = None ->
    threads st = (map (fun host => IGo (f host)) hosts ++ rest)%list :: others ->
    run (main_only (List.length hosts)) st
    = set_threads (rest :: others ++ map f hosts)%list st.
Proof.
  induction hosts as [|host hosts IH]; intros st rest others Hret Hthreads.
  - cbn in *. rewrite app_nil_r. destruct st. cbn in *. now subst.
  - cbn [List.length main_only repeat run fold_left].
    cbn [map app] in Hthreads.
    rewrite (move_go st false _ _ _ Hret Hthreads).
    fold (main_only (List.length hosts)).
    change (fold_left move (main_only (List.length hosts)) ?s)
      with (run (main_only (List.length hosts)) s).
    rewrite (IH _ rest (others ++ [f host])%list); [|exact Hret|reflexivity].
    cbn [map]. rewrite <- app_assoc. reflexivity.
Qed.

(** Without the sync flag [Exec] contacts no host and writes nothing
    itself: it starts one goroutine for each host, in the order of the
    list, then the closing goroutine, and waits at the [select]. *)
Theorem async_starts_one_goroutine_per_host (w : world) (p : Plugin) :
  Sync (Cfg p) = false -> validate p = None ->
  let st := Exec w p (main_only (List.length (Host (Cfg p)) + 2)) in
  threads st = (from_select :: map (exec w p) (Host (Cfg p)) ++ [closer])%list /\
  wg st = Z.of_nat (List.length (Host (Cfg p))) /\
  streams st = [] /\ output st = [] /\
  errChannel st = None /\ finished st = false /\ returned st = None.
Proof.
  intros Hasync Hvalid. unfold Exec. rewrite Hvalid, (fanout_async w p Hasync).
  replace (List.length (Host (Cfg p)) + 2)%nat
    with (1 + (List.length (Host (Cfg p)) + 1))%nat by lia.
  rewrite !main_only_add, !run_app.
  set (n := Z.of_nat (List.length (Host (Cfg p)))).
  set (gos := map (fun host => IGo (exec w p host)) (Host (Cfg p))).
  assert (Hfirst : run (main_only 1) (start (IWgAdd n :: gos ++ IGo closer :: from_select))
                   = set_wg n (start (gos ++ IGo closer :: from_select))).
  { cbn. unfold move, step. cbn. now rewrite Z.add_0_l. }
  rewrite Hfirst. subst gos.
  rewrite (spawn_all (exec w p) (Host (Cfg p)) _ (IGo closer :: from_select) []);
    [|reflexivity..].
  cbn [main_only repeat run fold_left].
  erewrite move_go; [|reflexivity..].
  cbn. repeat split.
Qed.

Lemma async_starts_one_goroutine_per_host_witness :
  threads (Exec all_denied two_hosts_async (main_only 4))
  = [from_select; exec all_denied two_hosts_async "a";
     exec all_denied two_hosts_async "b"; closer].
Proof.
  apply (async_starts_one_goroutine_per_host all_denied two_hosts_async); reflexivity.
Defined.

(** A goroutine goes through operations that neither send nor block,
    whatever the other goroutines have left to do. *)
Lemma thread_run (tid : nat) :
  forall pre st rest,
    returned st = None ->
    threads st !! tid = Some (pre ++ rest)%list ->
    forallb straight pre = true ->
    sends_of pre = [] ->
    existsb is_block pre = false ->
    threads (run (only tid (List.length pre)) st) = <[tid := rest]> (threads st) /\
    returned (run (only tid (List.length pre)) st) = None /\
    errChannel (run (only tid (List.length pre)) st) = errChannel st /\
    finished (run (only tid (List.length pre)) st) = finished st.
Proof.
  induction pre as [|i pre IH]; intros st rest Hret Htid Hstraight Hsends Hblock.
  - cbn. repeat split; try assumption. symmetry. now apply list_insert_id.
  - cbn [List.length only repeat run fold_left].
    cbn in Hstraight, Hblock.
    apply andb_true_iff in Hstraight as [Hi Hstraight].
    apply orb_false_elim in Hblock as [Hib Hblock].
    assert (Hlt : (tid < List.length (threads st))%nat)
      by (eapply lookup_lt_Some; eassumption).
    assert (Hmove : exists st1,
               move st (tid, false) = st1 /\
               returned st1 = None /\
               threads st1 = <[tid := (pre ++ rest)%list]> (threads st) /\
               errChannel st1 = errChannel st /\ finished st1 = finished st).
    { unfold move, step. cbn [fst snd]. rewrite Hret, Htid. cbn [app].
      destruct i; try discriminate Hi; try discriminate Hsends; try discriminate Hib;
        eexists; split; try reflexivity; cbn; auto. }
    destruct Hmove as (st1 & -> & Hret1 & Hthreads1 & Hchan1 & Hfin1).
    assert (Hsends' : sends_of pre = []) by (destruct i; cbn in Hsends; congruence).
    assert (Htid1 : threads st1 !! tid = Some (pre ++ rest)%list).
    { rewrite Hthreads1. now apply list_lookup_insert_eq. }
    fold (only tid (List.length pre)).
    change (fold_left move (only tid (List.length pre)) st1)
      with (run (only tid (List.length pre)) st1).
    destruct (IH st1 rest Hret1 Htid1 Hstraight Hsends' Hblock) as (Ht & Hr & Hc & Hf).
    rewrite Ht, Hr, Hc, Hf, Hthreads1, list_insert_insert_eq. auto.
Qed.

Lemma Exec_app (w : world) (p : Plugin) (s1 s2 : schedule) :
  validate p = None -> Exec w p (s1 ++ s2)%list = run s2 (Exec w p s1).
Proof. intros Hvalid. unfold Exec. rewrite Hvalid. apply run_app. Qed.

Lemma only_add (tid n m : nat) : only tid (n + m) = (only tid n ++ only tid m)%list.
Proof. unfold only. apply repeat_app. Qed.

(** Without the sync flag a unit that reports an error does not have to
    wait for the units before it: when the goroutine of a host gets to
    its first report while [Exec] waits at the [select], [Exec] returns
    that error, whatever the other hosts have left to do. *)
Theorem async_first_report_is_returned (w : world) (p : Plugin) (j : nat)
    (host : string) (pre post : list instr) (e : error) :
  Sync (Cfg p) = false -> validate p = None ->
  Host (Cfg p) !! j = Some host ->
  exec w p host = (pre ++ ISend e :: post)%list ->
  sends_of pre = [] -> existsb is_block pre = false ->
  returned (Exec w p (main_only (List.length (Host (Cfg p)) + 2)
                        ++ only (S j) (List.length pre + 1) ++ main_only 1)%list)
  = Some (Some e).
Proof.
  intros Hasync Hvalid Hhost Hexec Hsends Hblock.
  rewrite (Exec_app w p _ _ Hvalid), only_add, <- app_assoc, !run_app.
  destruct (async_starts_one_goroutine_per_host w p Hasync Hvalid)
    as (Hthreads & _ & _ & _ & Hchan & Hfin & Hret).
  set (st0 := Exec w p (main_only (List.length (Host (Cfg p)) + 2))) in *.
  assert (Htid : threads st0 !! S j = Some (pre ++ ISend e :: post)%list).
  { rewrite Hthreads.
    change ((map (exec w p) (Host (Cfg p)) ++ [closer])%list !! j
            = Some (pre ++ ISend e :: post)%list).
    rewrite lookup_app_l by (rewrite length_map; eapply lookup_lt_Some; eassumption).
    rewrite list_lookup_fmap, Hhost.
    change (Some (exec w p host) = Some (pre ++ ISend e :: post)%list).
    now rewrite Hexec. }
  assert (Hstraight : forallb straight pre = true).
  { pose proof (exec_straight w p host) as H. rewrite Hexec, forallb_app in H.
    now apply andb_true_iff in H as [H _]. }
  destruct (thread_run (S j) pre st0 _ Hret Htid Hstraight Hsends Hblock)
    as (Ht1 & Hr1 & Hc1 & Hf1).
  set (st1 := run (only (S j) (List.length pre)) st0) in *.
  assert (Hlt : (S j < List.length (threads st0))%nat) by (eapply lookup_lt_Some; eassumption).
  clearbody st1. clearbody st0.
  cbn [only main_only repeat run fold_left].
  unfold move at 2, step. cbn [fst snd].
  rewrite Hr1, Ht1, list_lookup_insert_eq by exact Hlt.
  rewrite Hc1, Hchan. cbn.
  unfold move, step. cbn.
  rewrite Hr1.
  rewrite Hthreads. cbn. rewrite Hf1, Hfin. reflexivity.
Qed.

Lemma async_first_report_is_returned_witness :
  returned (Exec all_denied two_hosts_async (main_only 4 ++ only 2 5 ++ main_only 1)%list)
  = Some (Some denied).
Proof.
  apply (async_first_report_is_returned all_denied two_hosts_async 1 "b"
           (firstn 4 (exec all_denied two_hosts_async "b")) [IWgDone] denied);
    reflexivity.
Defined.

(** ** When a run in sync mode can return *)

(** In sync mode [Exec] can return, under some schedule, exactly when
    the units report at most one error in all and none of them waits
    for a completion signal that never comes; otherwise it returns
    under no schedule. *)
Theorem sync_returns_iff (w : world) (p : Plugin) :
  Sync (Cfg p) = true -> validate p = None ->
  (exists sched r, returned (Exec w p sched) = Some r) <->
  ((List.length (sends_of (units w p)) <= 1)%nat /\ existsb is_block (units w p) = false).
Proof.
  intros Hsync Hvalid. split.
  - intros (sched & r & Hret).
    destruct (Exec_sync_returned w p sched r Hsync Hvalid Hret) as (_ & _ & _ & Hone & Hblock).
    auto.
  - intros [Hone Hblock].
    exists (closer_first (List.length (units w p))), None.
    now apply Exec_closer_first.
Qed.

Lemma sync_returns_iff_witness :
  (exists sched r, returned (Exec all_denied two_hosts sched) = Some r) <->
  ((List.length (sends_of (units all_denied two_hosts)) <= 1)%nat /\
   existsb is_block (units all_denied two_hosts) = false).
Proof.
  apply (sync_returns_iff all_denied two_hosts); reflexivity.
Defined.

(** ** What a unit writes and reports *)

(** The loop of [Plugin.exec] logs every line of standard output and of
    standard error that it receives before the completion signal, in
    the order received, and nothing of what comes after the signal. *)
Theorem multiplex_logs_until_done (p : Plugin) (host : string)
    (pre post : list event) (b : bool) (err : option error) :
  forallb (fun ev => negb (is_done ev)) pre = true ->
  mx_writes (multiplex p host (pre ++ EvDone b :: post) err) = lines_logged p host pre /\
  mx_exit (multiplex p host (pre ++ EvDone b :: post) err) = Some (recorded pre err, b).
Proof.
  revert err. induction pre as [|ev pre IH]; intros err Hpre; [split; reflexivity|].
  cbn in Hpre. apply andb_true_iff in Hpre as [Hev Hpre].
  destruct ev as [line|line|e|c]; cbn in Hev; try discriminate; cbn;
    destruct (IH err Hpre) as [Hw Hx]; try destruct (IH e Hpre) as [Hw' Hx'];
    split; congruence.
Qed.

Lemma multiplex_logs_until_done_witness :
  mx_writes (multiplex one_host "a" ([EvOut "x"; EvErr "y"] ++ EvDone true :: [EvOut "late"]) None)
  = lines_logged one_host "a" [EvOut "x"; EvErr "y"] /\
  mx_exit (multiplex one_host "a" ([EvOut "x"; EvErr "y"] ++ EvDone true :: [EvOut "late"]) None)
  = Some (recorded [EvOut "x"; EvErr "y"] None, true).
Proof.
  apply (multiplex_logs_until_done one_host "a" [EvOut "x"; EvErr "y"] [EvOut "late"] true None).
  reflexivity.
Defined.

Lemma sends_of_writes (l : list (writer * string)) : sends_of (map IWrite l) = [].
Proof. induction l; cbn; auto. Qed.

Lemma sends_of_sends (l : list error) : sends_of (map ISend l) = l.
Proof. induction l; cbn; congruence. Qed.

Lemma sends_of_streams (host : string) (n : nat) : sends_of (repeat (IStream host) n) = [].
Proof. induction n; cbn; auto. Qed.

(** What a unit sends on [errChannel]: the error of [retryStream] when
    the connection fails; after a connection, what [reports] says for
    the state in which the loop was left, and nothing when the loop is
    never left. *)
Lemma sends_of_exec (w : world) (p : Plugin) (host : string) :
  sends_of (exec w p host)
  = let p' := with_script p (forward_env w (Envs (Cfg p)) ++ Script (Cfg p))%list in
    match retryStream w (ssh_config p host) p' with
    | Some r =>
        match rr_answer r with
        | StreamErr err => [err]
        | StreamOk evs =>
            match mx_exit (multiplex p' host evs None) with
            | Some (err, isTimeout) => reports err isTimeout
            | None => []
            end
        end
    | None => []
    end.
Proof.
  unfold exec. cbn zeta.
  generalize (retryStream w (ssh_config p host)
                (with_script p (forward_env w (Envs (Cfg p)) ++ Script (Cfg p))%list)).
  intros o. rewrite !sends_of_app.
  replace (sends_of (if Debug (Cfg p) then _ else _)) with (@nil error)
    by (destruct (Debug (Cfg p)); reflexivity).
  cbn [sends_of app]. rewrite app_nil_r.
  destruct o as [r|]; [|reflexivity].
  rewrite sends_of_app, sends_of_streams.
  destruct (rr_answer r) as [evs|err]; [|reflexivity].
  rewrite sends_of_app, sends_of_writes.
  destruct (mx_exit _) as [[err b]|]; cbn; rewrite ?sends_of_sends; reflexivity.
Qed.

(** A unit sends at most two errors on [errChannel], and two only when
    it connected, recorded an error from the error channel and was told
    that the command timed out: the second one is then the timeout
    error. *)
Theorem exec_reports_at_most_twice (w : world) (p : Plugin) (host : string) :
  (List.length (sends_of (exec w p host)) <= 2)%nat /\
  (forall e1 e2 rest, sends_of (exec w p host) = e1 :: e2 :: rest ->
     e2 = Errorf commandTimeOut /\ rest = []).
Proof.
  rewrite sends_of_exec. cbn zeta.
  destruct (retryStream w _ _) as [r|]; [|split; [cbn; lia|discriminate]].
  destruct (rr_answer r) as [evs|err]; [|split; [cbn; lia|discriminate]].
  destruct (mx_exit _) as [[[e|] [|]]|]; cbn; split; try lia; try discriminate.
  intros e1 e2 rest [= _ <- <-]. auto.
Qed.

Lemma exec_reports_at_most_twice_witness :
  Errorf commandTimeOut = Errorf commandTimeOut /\ @nil error = [].
Proof.
  apply (proj2 (exec_reports_at_most_twice all_fail_and_time_out one_host "a")
           (PlainError "Process exited with status 1") (Errorf commandTimeOut) []).
  reflexivity.
Defined.

(** One host in sync mode whose command fails and times out: the unit
    sends two errors, and [Exec] never returns. *)
Example one_host_two_reports_block :
  sends_of (exec all_fail_and_time_out one_host "a")
  = [PlainError "Process exited with status 1"; Errorf commandTimeOut] /\
  forall sched, returned (Exec all_fail_and_time_out one_host sched) = None.
Proof.
  split; [reflexivity|].
  intros sched. apply sync_two_reports_never_return; [reflexivity..|].
  vm_compute. lia.
Qed.

(** ** What a unit does after its loop *)







